(** * gossh: stream forwarding, keepalive and host-trust logic

    A shallow embedding of the forwarding engine of the gossh client
    (direct.go, client.go) and of the session helpers (session.go), with the
    properties of its specification stated over it.

    The collaborators of the code (readers, writers, listeners, the ssh
    library, the terminal) are modelled by the sequence of results they hand
    back to the code; everything the code itself decides is a Rocq function
    or a step function over an explicit state. *)

From Stdlib Require Import ZArith Lia Ascii.
From stdpp Require Import prelude strings gmap.

Local Open Scope Z_scope.

(** ** Part I: the embedding *)

(** *** StreamCopier: [CopyBufferWithContext] (direct.go and client.go) *)

Module StreamCopier.

Definition bytes := list Byte.byte.

(** The error values the copy loop handles or creates. *)
Inductive error :=
| EOF                  (* io.EOF *)
| ErrShortWrite        (* io.ErrShortWrite *)
| errInvalidWrite      (* errors.New("invalid write result") *)
| interruptedErr       (* errors.New("interrupted"), direct.go *)
| ErrIO (msg : string) (* any other error of a reader or writer *).

(** The function exists in two textual variants. *)
Inductive Variant := ClientGo | DirectGo.

(** What the call leaves behind: the number of [src.Read] calls, the
    arguments of the [dst.Write] calls and of the [os.Stdout.Write] calls,
    oldest first. *)
Record IO := mkIO {
  io_reads : nat;
  io_dst : list bytes;
  io_stdout : list bytes;
}.

Definition io0 : IO := mkIO 0 [] [].

(** The value of a Go [(int64, error)] result pair. *)
Definition Result : Type := Z * option error.

(** [src]: an [io.Reader].  [src_reads] lists the results of its successive
    [Read(buf)] calls as (buf[0:nr], er); once the list is used up the
    reader is at the end of its input and answers (0, io.EOF).
    [src_writeTo] is its [WriteTo] method when it has one, [src_limited]
    is [Some N] when it is an [*io.LimitedReader] with [N] bytes left. *)
Record Source := mkSource {
  src_writeTo : option (IO -> Result * IO);
  src_limited : option Z;
  src_reads : list (bytes * option error);
}.

(** [dst]: an [io.Writer].  [dst_write k p] is the result (nw, ew) of its
    [k]-th [Write] call (counting from 0) when handed [p]; [dst_readFrom]
    is its [ReadFrom] method when it has one. *)
Record Sink := mkSink {
  dst_readFrom : option (Source -> IO -> Result * IO);
  dst_write : nat -> bytes -> Z * option error;
}.

(** [ctx.Done()] as the loop sees it: never closed, or found closed from
    the check number [k] on (counting from 0). *)
Inductive Ctx := Never | DoneAfter (k : nat).

Definition ctx_done (c : Ctx) : bool :=
  match c with DoneAfter O => true | _ => false end.

Definition ctx_next (c : Ctx) : Ctx :=
  match c with DoneAfter (S k) => DoneAfter k | _ => c end.

(** [Panicked]: buf[0:nr] with nr beyond the buffer, whose capacity is
    taken to be its length, as for the buffers [bindConnsWithBuffer]
    makes. *)
Inductive Outcome :=
| Returned (written : Z) (err : option error)
| Panicked.

(** int64 arithmetic wraps around. *)
Definition wrap64 (z : Z) : Z := (z + 2 ^ 63) mod 2 ^ 64 - 2 ^ 63.

(** [case <-ctx.Done():] client.go has a bare [return] (err is still nil
    there), direct.go has [return written, interruptedErr]. *)
Definition cancelled (v : Variant) (written : Z) : Outcome :=
  match v with
  | ClientGo => Returned written None
  | DirectGo => Returned written (Some interruptedErr)
  end.

(** direct.go echoes the chunk on os.Stdout before writing it to dst. *)
Definition echo (v : Variant) (p : bytes) (io : IO) : IO :=
  match v with
  | ClientGo => io
  | DirectGo => mkIO (io_reads io) (io_dst io) (io_stdout io ++ [p])
  end.

Definition did_read (io : IO) : IO :=
  mkIO (S (io_reads io)) (io_dst io) (io_stdout io).

Definition did_write (p : bytes) (io : IO) : IO :=
  mkIO (io_reads io) (io_dst io ++ [p]) (io_stdout io).

(** [if nw < 0 || nr < nw { nw = 0; if ew == nil { ew = errInvalidWrite } }] *)
Definition checkWrite (nr : Z) (res : Z * option error) : Z * option error :=
  let '(nw, ew) := res in
  if (nw <? 0) || (nr <? nw)
  then (0, match ew with None => Some errInvalidWrite | Some _ => ew end)
  else (nw, ew).

(** [if er != nil { if er != io.EOF { err = er }; goto ret }] *)
Definition readError (er : error) : option error :=
  match er with EOF => None | _ => Some er end.

(** The [for] loop, one iteration per element of the reader's results. *)
Fixpoint copyLoop (v : Variant) (dst : Sink) (size : Z)
    (reads : list (bytes * option error)) (ctx : Ctx) (io : IO)
    (written : Z) : Outcome * IO :=
  if ctx_done ctx then (cancelled v written, io)
  else
    match reads with
    | [] => (Returned written None, did_read io)
    | (chunk, er) :: rest =>
        let io := did_read io in
        let nr := Z.of_nat (length chunk) in
        let after_read (io : IO) (written : Z) :=
          match er with
          | Some e => (Returned written (readError e), io)
          | None => copyLoop v dst size rest (ctx_next ctx) io written
          end in
        if 0 <? nr then
          if size <? nr then (Panicked, io)
          else
            let io := echo v chunk io in
            let '(nw, ew) :=
              checkWrite nr (dst_write dst (length (io_dst io)) chunk) in
            let io := did_write chunk io in
            let written := wrap64 (written + nw) in
            match ew with
            | Some e => (Returned written (Some e), io)
            | None =>
                if negb (nr =? nw)
                then (Returned written (Some ErrShortWrite), io)
                else after_read io written
            end
        else after_read io written
    end.

(** [size := 32 * 1024], shrunk to [l.N] for a short [*io.LimitedReader]. *)
Definition allocSize (src : Source) : Z :=
  let size := 32 * 1024 in
  match src_limited src with
  | Some n => if size >? n then (if n <? 1 then 1 else n) else size
  | None => size
  end.

(** [buf] is given by its length, [None] being the nil slice. *)
Definition bufLen (buf : option nat) (src : Source) : Z :=
  match buf with
  | Some n => Z.of_nat n
  | None => allocSize src
  end.

Definition lift (r : Result * IO) : Outcome * IO :=
  (Returned (fst (fst r)) (snd (fst r)), snd r).

Definition CopyBufferWithContext (v : Variant) (dst : Sink) (src : Source)
    (buf : option nat) (ctx : Ctx) (io : IO) : Outcome * IO :=
  match src_writeTo src with
  | Some writeTo => lift (writeTo io)
  | None =>
      match dst_readFrom dst with
      | Some readFrom => lift (readFrom src io)
      | None => copyLoop v dst (bufLen buf src) (src_reads src) ctx io 0
      end
  end.

(** The bytes a reader hands out up to its first error, and that error
    (io.EOF when the results are used up). *)
Fixpoint produced (reads : list (bytes * option error)) : bytes :=
  match reads with
  | [] => []
  | (chunk, None) :: rest => chunk ++ produced rest
  | (chunk, Some _) :: _ => chunk
  end.

Fixpoint terminal (reads : list (bytes * option error)) : error :=
  match reads with
  | [] => EOF
  | (_, None) :: rest => terminal rest
  | (_, Some e) :: _ => e
  end.

(** A [WriteTo] or [ReadFrom] method that keeps to its contract on the
    reads of the source: it hands all the reader produces to dst, in order,
    and returns their number and the reader's error, io.EOF being no
    error. *)
Definition delivers (reads : list (bytes * option error))
    (method : IO -> Result * IO) : Prop :=
  forall io,
    exists io',
      method io
      = ((Z.of_nat (length (produced reads)), readError (terminal reads)), io')
      /\ concat (io_dst io') = concat (io_dst io) ++ produced reads.

(** A writer that takes every chunk whole. *)
Definition faithful (dst : Sink) : Prop :=
  forall k p, dst_write dst k p = (Z.of_nat (length p), None).

Definition plainSink : Sink :=
  mkSink None (fun _ p => (Z.of_nat (length p), None)).

Definition plainSource (reads : list (bytes * option error)) : Source :=
  mkSource None None reads.

(** A [ReadFrom] method that copies the way io.Copy does, without a
    context, as the one of a [*net.TCPConn] does for a plain reader. *)
Definition ioCopyReadFrom (src : Source) (io : IO) : Result * IO :=
  match copyLoop ClientGo plainSink (32 * 1024) (src_reads src) Never io 0 with
  | (Returned written err, io') => ((written, err), io')
  | (Panicked, io') => ((0, None), io')
  end.

Definition tcpSink : Sink :=
  mkSink (Some ioCopyReadFrom) (fun _ p => (Z.of_nat (length p), None)).

Definition hello : bytes := [Byte.x68; Byte.x65; Byte.x6c; Byte.x6c; Byte.x6f].

(** Two reads, the second one with io.EOF next to its last byte. *)
Definition helloReads : list (bytes * option error) :=
  [(take 4 hello, None); (drop 4 hello, Some EOF)].

(** A reader over [data] that fills the buffer it is given, as
    bytes.Reader.Read does: [chunksOf fuel n data] are its results for
    buffers of [n] bytes ([fuel] bounds their number, len(data) is enough
    when [n >= 1]). *)
Fixpoint chunksOf (fuel n : nat) (data : bytes) : list (bytes * option error) :=
  match fuel with
  | O => []
  | S fuel' =>
      match data with
      | [] => []
      | _ => (take n data, None) :: chunksOf fuel' n (drop n data)
      end
  end.

(** What the two variants agree on: the reads made and the writes handed
    to dst. *)
Definition same_traffic (a b : IO) : Prop :=
  io_reads a = io_reads b /\ io_dst a = io_dst b.

(** The results are the same, or the run ended on the cancellation branch,
    with the same count and nil against interruptedErr. *)
Definition same_but_cancel (c d : Outcome) : Prop :=
  c = d
  \/ exists written,
      c = Returned written None /\ d = Returned written (Some interruptedErr).

End StreamCopier.

(** *** ForwardBinding: [bindConnsWithBuffer] (direct.go) *)

Module ForwardBinding.

(** Where one of the two copy goroutines stands. *)
Inductive pc :=
| NotSpawned
| Copying        (* inside CopyBufferWithContext *)
| ClosingLocal   (* about to run lconn.Close() *)
| ClosingRemote  (* about to run rconn.Close() *)
| Signalling     (* about to run wg.Done() *)
| Exited.

(** Where the caller of [bindConnsWithBuffer] stands. *)
Inductive caller :=
| AtAdd | AtGoToRemote | AtGoToLocal | AtWait | HasReturned.

Record State := mkState {
  main : caller;
  toRemote : pc;       (* the l->remote goroutine *)
  toLocal : pc;        (* the remote->l goroutine *)
  wg : Z;              (* the WaitGroup counter *)
  local_closes : nat;  (* calls of lconn.Close() so far *)
  remote_closes : nat; (* calls of rconn.Close() so far *)
}.

Definition init : State := mkState AtAdd NotSpawned NotSpawned 0 0 0.

(** Who takes the next step. *)
Inductive Thread := Caller | ToRemote | ToLocal.

(** One step of a copy goroutine: the copy returns (for whatever reason:
    end of input, cancellation, error), then both streams are closed, then
    the WaitGroup is signalled. *)
Definition advance (p : pc) (s : State) : option (pc * State) :=
  match p with
  | NotSpawned | Exited => None
  | Copying => Some (ClosingLocal, s)
  | ClosingLocal =>
      Some (ClosingRemote,
            mkState (main s) (toRemote s) (toLocal s) (wg s)
                    (S (local_closes s)) (remote_closes s))
  | ClosingRemote =>
      Some (Signalling,
            mkState (main s) (toRemote s) (toLocal s) (wg s)
                    (local_closes s) (S (remote_closes s)))
  | Signalling =>
      Some (Exited,
            mkState (main s) (toRemote s) (toLocal s) (wg s - 1)
                    (local_closes s) (remote_closes s))
  end.

Definition step (t : Thread) (s : State) : option State :=
  match t with
  | Caller =>
      match main s with
      | AtAdd =>
          Some (mkState AtGoToRemote (toRemote s) (toLocal s) (wg s + 2)
                        (local_closes s) (remote_closes s))
      | AtGoToRemote =>
          Some (mkState AtGoToLocal Copying (toLocal s) (wg s)
                        (local_closes s) (remote_closes s))
      | AtGoToLocal =>
          Some (mkState AtWait (toRemote s) Copying (wg s)
                        (local_closes s) (remote_closes s))
      | AtWait =>
          if wg s =? 0
          then Some (mkState HasReturned (toRemote s) (toLocal s) (wg s)
                             (local_closes s) (remote_closes s))
          else None
      | HasReturned => None
      end
  | ToRemote =>
      '(p, s') ← advance (toRemote s) s;
      Some (mkState (main s') p (toLocal s') (wg s')
                    (local_closes s') (remote_closes s'))
  | ToLocal =>
      '(p, s') ← advance (toLocal s) s;
      Some (mkState (main s') (toRemote s') p (wg s')
                    (local_closes s') (remote_closes s'))
  end.

(** [bindConnsWithBuffer] under a schedule, the order in which the caller
    and the two goroutines take their steps. *)
Fixpoint bindConnsWithBuffer (sched : list Thread) (s : State) : option State :=
  match sched with
  | [] => Some s
  | t :: sched' => s' ← step t s; bindConnsWithBuffer sched' s'
  end.

Definition terminated (p : pc) : bool :=
  match p with Exited => true | _ => false end.

(** The copy of the goroutine has returned. *)
Definition copy_ended (p : pc) : bool :=
  match p with
  | ClosingLocal | ClosingRemote | Signalling | Exited => true
  | _ => false
  end.

(** The goroutine is past both of its Close calls. *)
Definition past_closes (p : pc) : bool :=
  match p with Signalling | Exited => true | _ => false end.

Definition both_closed (s : State) : Prop :=
  (0 < local_closes s)%nat /\ (0 < remote_closes s)%nat.

(** What the WaitGroup still waits for on behalf of a goroutine. *)
Definition pending (p : pc) : Z :=
  match p with Exited => 0 | _ => 1 end.

(** The Close calls a goroutine at [p] has behind it. *)
Definition closes_behind (p : pc) (s : State) : Prop :=
  match p with
  | ClosingRemote => (0 < local_closes s)%nat
  | Signalling | Exited => both_closed s
  | _ => True
  end.

Definition bind_inv (s : State) : Prop :=
  match main s with
  | AtAdd =>
      wg s = 0 /\ toRemote s = NotSpawned /\ toLocal s = NotSpawned
  | AtGoToRemote =>
      wg s = 2 /\ toRemote s = NotSpawned /\ toLocal s = NotSpawned
  | AtGoToLocal =>
      wg s = pending (toRemote s) + 1
      /\ toRemote s <> NotSpawned /\ toLocal s = NotSpawned
  | AtWait =>
      wg s = pending (toRemote s) + pending (toLocal s)
      /\ toRemote s <> NotSpawned /\ toLocal s <> NotSpawned
  | HasReturned =>
      wg s = 0 /\ toRemote s = Exited /\ toLocal s = Exited
  end
  /\ closes_behind (toRemote s) s
  /\ closes_behind (toLocal s) s.

(** The remote->l copy ends first and closes both streams while the other
    copy is still running; the call returns after that one has ended as
    well. *)
Definition remote_side_ends_first : list Thread :=
  [Caller; Caller; Caller;
   ToLocal; ToLocal; ToLocal; ToLocal;
   ToRemote; ToRemote; ToRemote; ToRemote;
   Caller].

End ForwardBinding.

(** *** Director: the accept loops (direct.go) *)

Module Director.

Definition conn := nat.

Inductive Direction := LocalToRemote | RemoteToLocal.

Inductive stage :=
| Copying        (* inside CopyBufferWithContext *)
| ClosingLocal   (* about to run lconn.Close() *)
| ClosingRemote  (* about to run rconn.Close() *).

(** The goroutines [RedirectToWithBuffer] starts. *)
Inductive goroutine :=
| Handler (lconn : conn)   (* go func() { rconn, err := d.client.Dial(..) *)
| Copier (d : Direction) (st : stage) (lconn rconn : conn)
| Gone.

Record State := mkState {
  accepting : bool;    (* the for loop has not returned *)
  fresh : conn;        (* connections are numbered as they are opened *)
  closed : gset conn;  (* connections on which Close() was called *)
  gs : list goroutine;
}.

Definition init : State := mkState true 0%nat ∅ [].

Inductive Action :=
| CtxDone               (* case <-ctx.Done(): return *)
| AcceptFails           (* listener.Accept() returns an error *)
| Accept                (* listener.Accept() returns a connection *)
| DialFails (i : nat)   (* d.client.Dial returns an error, goroutine i *)
| DialOk (i : nat)
| Advance (i : nat)     (* goroutine i, a copier, takes its next step *).

Definition step (a : Action) (s : State) : option State :=
  match a with
  | CtxDone | AcceptFails =>
      if accepting s then Some (mkState false (fresh s) (closed s) (gs s))
      else None
  | Accept =>
      if accepting s
      then Some (mkState true (S (fresh s)) (closed s)
                         (gs s ++ [Handler (fresh s)]))
      else None
  | DialFails i =>
      match gs s !! i with
      | Some (Handler l) =>
          Some (mkState (accepting s) (fresh s) (closed s) (<[i:=Gone]> (gs s)))
      | _ => None
      end
  | DialOk i =>
      match gs s !! i with
      | Some (Handler l) =>
          let r := fresh s in
          Some (mkState (accepting s) (S r) (closed s)
                  (<[i:=Gone]> (gs s)
                     ++ [Copier LocalToRemote Copying l r;
                         Copier RemoteToLocal Copying l r]))
      | _ => None
      end
  | Advance i =>
      match gs s !! i with
      | Some (Copier d Copying l r) =>
          Some (mkState (accepting s) (fresh s) (closed s)
                        (<[i:=Copier d ClosingLocal l r]> (gs s)))
      | Some (Copier d ClosingLocal l r) =>
          Some (mkState (accepting s) (fresh s) ({[l]} ∪ closed s)
                        (<[i:=Copier d ClosingRemote l r]> (gs s)))
      | Some (Copier d ClosingRemote l r) =>
          Some (mkState (accepting s) (fresh s) ({[r]} ∪ closed s)
                        (<[i:=Gone]> (gs s)))
      | _ => None
      end
  end.

(** [RedirectToWithBuffer] under a schedule, the order in which the loop
    and the goroutines take their steps and what they meet. *)
Fixpoint RedirectToWithBuffer (sched : list Action) (s : State) : option State :=
  match sched with
  | [] => Some s
  | a :: sched' => s' ← step a s; RedirectToWithBuffer sched' s'
  end.

(** The goroutine holds connection [c]. *)
Definition holds (c : conn) (g : goroutine) : Prop :=
  match g with
  | Handler l => l = c
  | Copier _ _ l r => l = c \/ r = c
  | Gone => False
  end.

Definition is_open (c : conn) (s : State) : Prop :=
  (c < fresh s)%nat /\ c ∉ closed s.

(** No goroutine is left that reads, writes or will close [c]. *)
Definition unserviced (c : conn) (s : State) : Prop :=
  Forall (fun g => ~ holds c g) (gs s).

(** One local connection accepted, the dial for it refused. *)
Definition dial_refused : list Action := [Accept; DialFails 0%nat].

(** Connection [c] is open and no goroutine holds it. *)
Definition leaked (c : conn) (s : State) : Prop :=
  is_open c s /\ unserviced c s.

(** A second connection is accepted, dialled and copied to its end, and
    the loop returns: the first one is still open. *)
Definition second_conn_served : list Action :=
  [Accept; DialOk 1%nat;
   Advance 2%nat; Advance 2%nat; Advance 2%nat;
   Advance 3%nat; Advance 3%nat; Advance 3%nat;
   AcceptFails].

(** The state that run ends in: connections 1 and 2 closed, twice each. *)
Definition second_conn_closed : State :=
  mkState false 3%nat
          ({[2%nat]} ∪ ({[1%nat]} ∪ ({[2%nat]} ∪ ({[1%nat]} ∪ ∅))))
          [Gone; Gone; Gone; Gone].

(** [DirectTcpToWithBuffer]: what each turn of the loop meets. *)
Inductive Turn :=
| Cancelled             (* ctx.Done() is closed *)
| AcceptError           (* listener.Accept() returns an error *)
| Accepted (c : conn).

Record LoopResult := mkLoop {
  returned : bool;        (* the function has returned *)
  handlers : list conn;   (* connections handed to a goroutine, in order *)
  untouched : list Turn;  (* turns the loop never got to *)
}.

(** [NewConnCb]: [None] is a nil hook, a hook answers [None] for an error. *)
Definition NewConnCallback : Type := conn -> option conn.

Fixpoint DirectTcpToWithBuffer (cb : option NewConnCallback)
    (turns : list Turn) (spawned : list conn) : LoopResult :=
  match turns with
  | [] => mkLoop false spawned []
  | Cancelled :: rest => mkLoop true spawned rest
  | AcceptError :: rest => mkLoop true spawned rest
  | Accepted lconn :: rest =>
      match cb with
      | Some newConn =>
          match newConn lconn with
          | None => mkLoop true spawned rest
          | Some transformed =>
              DirectTcpToWithBuffer cb rest (spawned ++ [transformed])
          end
      | None => DirectTcpToWithBuffer cb rest (spawned ++ [lconn])
      end
  end.

Definition failing_hook : NewConnCallback := fun _ => None.

End Director.

(** *** InteractiveSession: [KeepAlive] (session.go) *)

Module KeepAlive.

(** What the [select] of the background goroutine picks on a turn: the
    cancelled context, or a tick, on which a request is sent; [failed]
    tells whether [SendRequest] returned an error. *)
Inductive Turn := CtxDone | Tick (failed : bool).

Inductive Status :=
| NotStarted   (* interval <= 0: no goroutine *)
| Waiting      (* blocked in select *)
| Cancelled    (* returned on ctx.Done() *)
| GaveUp       (* returned on a failed send *).

Record Report := mkReport { sends : nat; status : Status }.

(** The goroutine started when [maxErrRetries <= 0]. *)
Fixpoint foreverLoop (turns : list Turn) (sent : nat) : Report :=
  match turns with
  | [] => mkReport sent Waiting
  | CtxDone :: _ => mkReport sent Cancelled
  | Tick _ :: rest => foreverLoop rest (S sent)
  end.

(** The goroutine started otherwise; [maxErrRetries] is the captured
    variable it counts down. *)
Fixpoint countingLoop (maxErrRetries : Z) (turns : list Turn) (sent : nat)
    : Report :=
  match turns with
  | [] => mkReport sent Waiting
  | CtxDone :: _ => mkReport sent Cancelled
  | Tick failed :: rest =>
      let sent := S sent in
      if failed then
        if maxErrRetries <=? 0 then mkReport sent GaveUp
        else countingLoop (maxErrRetries - 1) rest sent
      else countingLoop maxErrRetries rest sent
  end.

Definition KeepAlive (interval : Z) (maxErrRetries : Z) (turns : list Turn)
    : Report :=
  if interval <=? 0 then mkReport 0 NotStarted
  else if maxErrRetries <=? 0 then foreverLoop turns 0
  else countingLoop maxErrRetries turns 0.

Definition failures (n : nat) : list Turn := replicate n (Tick true).

End KeepAlive.

(** *** InteractiveSession: [Shell] and [Exec] (session.go)

    Both only forward to the [*ssh.Session] of golang.org/x/crypto/ssh that
    the wrapper holds; the wrapper has no field that records an earlier call
    (its embedded mutex is never locked).  The library is a parameter. *)

Module Session.
Section Wrapper.

Variable Lib : Type.                 (* the state of the *ssh.Session *)
Variable Err : Type.
Variable lib_Shell : Lib -> option Err * Lib.           (* sess.Shell() *)
Variable lib_Wait : Lib -> option Err * Lib.            (* sess.Wait() *)
Variable lib_Run : string -> Lib -> option Err * Lib.   (* sess.Run(cmd) *)

Definition Shell (s : Lib) : option Err * Lib :=
  match lib_Shell s with
  | (Some err, s') => (Some err, s')
  | (None, s') => lib_Wait s'
  end.

Definition Exec (cmdline : string) (s : Lib) : option Err * Lib :=
  lib_Run cmdline s.

End Wrapper.
End Session.

(** *** HostTrustDecider: [KnownHostsCheck] (the authentication code kept
    in session.go) *)

Module HostTrust.

(** The errors of golang.org/x/crypto/ssh/knownhosts and of the function
    itself. *)
Inductive error :=
| ErrNoFile                       (* "no known_hosts file given" *)
| ErrUnknownHost                  (* "unknown host" *)
| KeyError (want : list string)   (* *knownhosts.KeyError *)
| RevokedError                    (* *knownhosts.RevokedError *)
| ErrScan                         (* fmt.Scan found no token *)
| ErrFile (msg : string)          (* reading or writing a file *).

(** What the trust store says about the presented host and key, and the
    answer of the callback of [knownhosts.New] for it, as that library
    documents it: nil for a host with this key on record, a [*KeyError]
    with an empty [Want] for a host with no record, a [*KeyError] listing
    the known keys for a host with other keys, a [*RevokedError] for a
    revoked key. *)
Inductive Lookup := Found | NotFound | OtherKeys (want : list string) | Revoked.

Definition callback (l : Lookup) : option error :=
  match l with
  | Found => None
  | NotFound => Some (KeyError [])
  | OtherKeys want => Some (KeyError want)
  | Revoked => Some RevokedError
  end.

Inductive Message :=
| RevokedKeyFound                            (* "revoked key found" *)
| AskContinue (files : list string)          (* "No host key found in .." *)
| AskAppend (hostname remote file : string)  (* "Append ..@.. 's host key" *)
| AddFailed (file : string).                 (* "Add host key to .. failed" *)

(** The terminal and the file [kw.files[0]]: the tokens still to be read
    from standard input, what was printed, whether the file can be opened
    for appending and written, and what was appended to it. *)
Record World := mkWorld {
  stdin : list string;
  printed : list Message;
  openable : bool;
  writable : bool;
  appended : list string;
}.

Definition print (m : Message) (w : World) : World :=
  mkWorld (stdin w) (printed w ++ [m]) (openable w) (writable w) (appended w).

(** [fmt.Scan(&answer)]: the next token, or an error and [answer] as it
    was. *)
Definition Scan (answer : string) (w : World) : string * option error * World :=
  match stdin w with
  | [] => (answer, Some ErrScan, w)
  | tok :: rest =>
      (tok, None,
       mkWorld rest (printed w) (openable w) (writable w) (appended w))
  end.

(** [os.OpenFile(.., O_WRONLY|O_APPEND, ..)] followed by [WriteString]:
    the error of OpenFile is overwritten, a nil file fails the write. *)
Definition WriteString (text : string) (w : World) : option error * World :=
  if openable w && writable w
  then (None, mkWorld (stdin w) (printed w) (openable w) (writable w)
                      (appended w ++ [text]))
  else (Some (ErrFile "write"), w).

(** [strings.ToLower] on the ASCII letters. *)
Definition lower (c : ascii) : ascii :=
  let n := nat_of_ascii c in
  if (65 <=? n)%nat && (n <=? 90)%nat then ascii_of_nat (n + 32) else c.

Fixpoint ToLower (s : string) : string :=
  match s with
  | EmptyString => EmptyString
  | String c s' => String (lower c) (ToLower s')
  end.

Definition newline : string := String (ascii_of_nat 10) EmptyString.

Record KnownHostsChecker := mkChecker {
  files : list string;
  Interactively : bool;
}.

Section Check.

Variable PublicKey : Type.
(** [knownhosts.Line]: the known_hosts line for addresses and a key. *)
Variable Line : list string -> PublicKey -> string.

(** [new_err] is the error of [knownhosts.New(kw.files...)], [found]
    what the store says about the presented identity; [remote] stands
    for [remote.String()]. *)
Definition KnownHostsCheck (kw : KnownHostsChecker)
    (new_err : option error) (found : Lookup)
    (hostname remote : string) (key : PublicKey) (w : World)
    : option error * World :=
  match files kw with
  | [] => (Some ErrNoFile, w)
  | file0 :: _ =>
      match new_err with
      | Some RevokedError =>
          (Some RevokedError,
           if Interactively kw then print RevokedKeyFound w else w)
      | Some err => (Some err, w)
      | None =>
          match callback found with
          | Some err => (Some err, w)
          | None =>
              if negb (Interactively kw) then (None, w)
              else
                let w := print (AskContinue (files kw)) w in
                let '(answer, err, w) := Scan "no" w in
                match err with
                | Some err => (Some err, w)
                | None =>
                    if String.eqb (ToLower answer) "yes" then
                      let w := print (AskAppend hostname remote file0) w in
                      let '(answer, err, w) := Scan "no" w in
                      match err with
                      | Some err => (Some err, w)
                      | None =>
                          if String.eqb (ToLower answer) "no" then (None, w)
                          else if String.eqb answer "yes" then
                            let line := Line [remote] key in
                            let '(err, w) := WriteString (line +:+ newline) w in
                            match err with
                            | Some _ => (None, print (AddFailed file0) w)
                            | None => (None, w)
                            end
                          else (None, w)
                      end
                    else (Some ErrUnknownHost, w)
                end
          end
      end
  end.

End Check.

(** The library functions behind [knownhosts.Line], to run the function on
    examples: [net.SplitHostPort], [knownhosts.Normalize] (the default port
    22 is dropped, another port gives [host]:port, a bare IPv6 address is
    put in brackets) and [Line] itself, for a key given as its type and its
    base64 text. *)
Fixpoint indexByte (c : ascii) (s : string) : option nat :=
  match s with
  | EmptyString => None
  | String a rest =>
      if Ascii.eqb a c then Some 0%nat else S <$> indexByte c rest
  end.

Fixpoint lastIndexByte (c : ascii) (s : string) : option nat :=
  match s with
  | EmptyString => None
  | String a rest =>
      match lastIndexByte c rest with
      | Some i => Some (S i)
      | None => if Ascii.eqb a c then Some 0%nat else None
      end
  end.

(** [s[i:j]] and [s[i:]]. *)
Definition slice (i j : nat) (s : string) : string := String.substring i (j - i) s.
Definition sliceFrom (i : nat) (s : string) : string :=
  String.substring i (String.length s - i) s.

Definition has (c : ascii) (s : string) : bool :=
  match indexByte c s with Some _ => true | None => false end.

(** [None] stands for the error of the library function. *)
Definition SplitHostPort (hostport : string) : option (string * string) :=
  match lastIndexByte ":" hostport with
  | None => None
  | Some i =>
      let port := sliceFrom (S i) hostport in
      match hostport with
      | String "[" _ =>
          match indexByte "]" hostport with
          | None => None
          | Some e =>
              if negb (S e =? i)%nat then None
              else if has "[" (sliceFrom 1 hostport) then None
              else if has "]" (sliceFrom (S e) hostport) then None
              else Some (slice 1 e hostport, port)
          end
      | _ =>
          let host := slice 0 i hostport in
          if has ":" host then None
          else if has "[" hostport then None
          else if has "]" hostport then None
          else Some (host, port)
      end
  end.

Definition Normalize (address : string) : string :=
  let '(host, port) :=
    match SplitHostPort address with
    | Some hp => hp
    | None => (address, "22")
    end in
  if negb (String.eqb port "22") then "[" +:+ host +:+ "]:" +:+ port
  else if has ":" host && negb (String.prefix "[" host)
       then "[" +:+ host +:+ "]"
       else host.

Definition TextKey : Type := string * string.

Definition textLine (addresses : list string) (key : TextKey) : string :=
  String.concat "," (map Normalize addresses)
  +:+ " " +:+ fst key +:+ " " +:+ snd key.

Definition terminal (answers : list string) : World :=
  mkWorld answers [] true true [].

Definition example_checker : KnownHostsChecker :=
  mkChecker ["known_hosts"] true.

Definition example_key : TextKey := ("ssh-ed25519", "AAAAC3NzaC1lZDI1NTE5").

End HostTrust.

(** *** Further code of the same files *)

(** **** StreamCopier: what the loop hands on *)

Module CopierTraffic.
Import StreamCopier.

(** The chunks that are not empty: the ones the loop writes. *)
Fixpoint nonempty (chunks : list bytes) : list bytes :=
  match chunks with
  | [] => []
  | [] :: rest => nonempty rest
  | chunk :: rest => chunk :: nonempty rest
  end.

(** The number of bytes in a list of chunks. *)
Definition volume (chunks : list bytes) : Z :=
  Z.of_nat (length (concat chunks)).

(** A writer that takes the first chunk and fails from then on. *)
Definition brokenSink : Sink :=
  mkSink None (fun k p =>
                 match k with
                 | O => (Z.of_nat (length p), None)
                 | S _ => (0, Some (ErrIO "broken pipe"))
                 end).

(** A writer that takes two bytes of every chunk. *)
Definition shortSink : Sink := mkSink None (fun _ _ => (2, None)).

End CopierTraffic.

(** **** Director: [BindConnToWithBuffer], [BindTcpConnToWithBuffer] and the
    goroutine [DirectTcpToWithBuffer] starts for a connection *)

Module Binding.
Import ForwardBinding.

(** A call that is still inside [bindConnsWithBuffer], or has returned with
    its error and the binding it went through, if any. *)
Inductive Call (E : Type) :=
| Running (s : State)
| Finished (err : option E) (binding : option State).

Arguments Running {E} s.
Arguments Finished {E} err binding.

(** [remoteConn, err := d.client.Dial(..); if err != nil { return err };
    d.bindConnsWithBuffer(..); return nil], [dial] being the error of the
    dial.  [BindTcpConnToWithBuffer] is the same text with [DialTCP], and
    [BindConnTo], [BindTcpConnTo] call these with [bufSize = 0]. *)
Definition BindConnToWithBuffer {E : Type} (dial : option E)
    (sched : list Thread) : option (Call E) :=
  match dial with
  | Some err => Some (Finished (Some err) None)
  | None =>
      s ← bindConnsWithBuffer sched init;
      Some (match main s with
            | HasReturned => Finished None (Some s)
            | _ => Running s
            end)
  end.

Definition BindTcpConnToWithBuffer {E : Type} (dial : option E)
    (sched : list Thread) : option (Call E) :=
  BindConnToWithBuffer dial sched.

(** The goroutine of [DirectTcpToWithBuffer]: it returns when the context
    is done or the address does not resolve, and calls
    [BindTcpConnToWithBuffer] otherwise, dropping its error. *)
Definition directTcpHandler {E : Type} (ctx_done : bool)
    (resolve dial : option E) (sched : list Thread) : option (Call E) :=
  if ctx_done then Some (Finished None None)
  else
    match resolve with
    | Some _ => Some (Finished None None)
    | None =>
        call ← BindTcpConnToWithBuffer dial sched;
        Some (match call with
              | Running s => Running s
              | Finished _ binding => Finished None binding
              end)
    end.

End Binding.

(** **** Director: the accept loops, continued *)

Module Accepting.
Import Director.

(** The action is a refused dial. *)
Definition is_refusal (a : Action) : bool :=
  match a with DialFails _ => true | _ => false end.

(** Some goroutine holds connection [c]. *)
Definition held (c : conn) (s : State) : Prop :=
  exists j g, gs s !! j = Some g /\ holds c g.

(** Every connection opened so far is closed or held by a goroutine. *)
Definition all_served (s : State) : Prop :=
  forall c, (c < fresh s)%nat -> c ∈ closed s \/ held c s.

(** A copier about to close the remote side has closed the local one. *)
Definition local_closed_first (s : State) : Prop :=
  forall j d l r,
    gs s !! j = Some (Copier d ClosingRemote l r) -> l ∈ closed s.

(** Two connections accepted and dialled, the first copied to its end. *)
Definition two_conns_served : list Action :=
  [Accept; Accept; DialOk 0%nat; DialOk 1%nat;
   Advance 2%nat; Advance 2%nat; Advance 2%nat;
   Advance 3%nat; Advance 3%nat; Advance 3%nat].

(** The state that schedule ends in: connections 0 and 2 closed, 1 and 3
    still being copied. *)
Definition first_conn_closed : State :=
  mkState true 4%nat
          ({[2%nat]} ∪ ({[0%nat]} ∪ ({[2%nat]} ∪ ({[0%nat]} ∪ ∅))))
          [Gone; Gone; Gone; Gone;
           Copier LocalToRemote Copying 1%nat 3%nat;
           Copier RemoteToLocal Copying 1%nat 3%nat].

(** The connections accepted before the loop meets its end. *)
Fixpoint accepted_run (turns : list Turn) : list conn :=
  match turns with
  | Accepted c :: rest => c :: accepted_run rest
  | _ => []
  end.

(** The turns after the one that ends the loop. *)
Fixpoint after_end (turns : list Turn) : list Turn :=
  match turns with
  | [] => []
  | Accepted _ :: rest => after_end rest
  | _ :: rest => rest
  end.

Definition meets_end (turns : list Turn) : bool :=
  existsb (fun t => match t with Accepted _ => false | _ => true end) turns.

(** The connection a handler gets: the accepted one, or what the hook made
    of it. *)
Definition transform (cb : option NewConnCallback) (c : conn) : option conn :=
  match cb with
  | None => Some c
  | Some newConn => newConn c
  end.

Definition port_shift : NewConnCallback := fun c => Some (c + 100)%nat.

End Accepting.

(** **** InteractiveSession: [KeepAlive], counting *)

Module KeepAliveCount.
Import KeepAlive.

(** The failed sends among the turns. *)
Fixpoint failed (turns : list Turn) : Z :=
  match turns with
  | [] => 0
  | Tick true :: rest => 1 + failed rest
  | _ :: rest => failed rest
  end.

Definition is_tick (t : Turn) : Prop :=
  match t with Tick _ => True | CtxDone => False end.

(** Two failed sends with two successful ones between them. *)
Definition flaky : list Turn := [Tick true; Tick false; Tick false; Tick true].

End KeepAliveCount.

(** **** InteractiveSession: [SendWinChange] and [AutoUpdateTerminalSize] *)

Module Terminal.

Inductive error :=
| ErrGetSize        (* term.GetSize failed *)
| ErrWindowChange   (* sess.WindowChange failed *).

(** A size is (width, height), as [term.GetSize] returns it; a request is
    (height, width), as [WindowChange] takes it. *)
Definition Size : Type := Z * Z.
Definition Request : Type := Z * Z.

(** [measured] is the result of [term.GetSize(fd)] ([None] for an error),
    [accepted] tells whether [WindowChange] succeeds if it is called.  The
    result is (width, height, err) and the requests sent. *)
Definition SendWinChange (measured : option Size) (accepted : bool)
    (oldTermHeight oldTermWidth : Z) : (Z * Z * option error) * list Request :=
  match measured with
  | None => ((oldTermWidth, oldTermHeight, Some ErrGetSize), [])
  | Some (newTermWidth, newTermHeight) =>
      if (newTermHeight =? oldTermHeight) && (newTermWidth =? oldTermWidth)
      then ((newTermWidth, newTermHeight, None), [])
      else if accepted
           then ((newTermWidth, newTermHeight, None),
                 [(newTermHeight, newTermWidth)])
           else ((oldTermWidth, oldTermHeight, Some ErrWindowChange),
                 [(newTermHeight, newTermWidth)])
  end.

(** What the [select] of the watching goroutine picks on a turn: the
    SIGWINCH signal, with what the measuring and the request will give, or
    the cancelled context. *)
Inductive Event :=
| Sigwinch (measured : option Size) (accepted : bool)
| CtxDone.

(** The goroutine:
    [termWidth, termHeight, err = s.SendWinChange(fd, termHeight, termWidth)]
    on every signal. *)
Fixpoint watch (events : list Event) (termWidth termHeight : Z)
    (sent : list Request) : Size * list Request :=
  match events with
  | [] => ((termWidth, termHeight), sent)
  | CtxDone :: _ => ((termWidth, termHeight), sent)
  | Sigwinch measured accepted :: rest =>
      let '((w, h, _), out) :=
        SendWinChange measured accepted termHeight termWidth in
      watch rest w h (sent ++ out)
  end.

(** [AutoUpdateTerminalSize]: a first [SendWinChange(fd, 0, 0)], whose
    error ends the call with no goroutine started. *)
Definition AutoUpdateTerminalSize (measured : option Size) (accepted : bool)
    (events : list Event) : option error * (Size * list Request) :=
  let '((termWidth, termHeight, err), out) :=
    SendWinChange measured accepted 0 0 in
  match err with
  | Some e => (Some e, ((termWidth, termHeight), out))
  | None => (None, watch events termWidth termHeight out)
  end.

(** Every request differs from the one before it, the first from [prev]. *)
Fixpoint changes_only (prev : Request) (sent : list Request) : Prop :=
  match sent with
  | [] => True
  | r :: rest => r <> prev /\ changes_only r rest
  end.

(** The request sent last, [prev] if there is none. *)
Fixpoint latest (prev : Request) (sent : list Request) : Request :=
  match sent with
  | [] => prev
  | r :: rest => latest r rest
  end.

(** The terminal is 80x24, is found unchanged, grows to 100x30, cannot be
    measured once, and the watching is cancelled. *)
Definition resizing : list Event :=
  [Sigwinch (Some (80, 24)) true; Sigwinch (Some (100, 30)) true;
   Sigwinch None true; CtxDone].

Definition all_accepted (events : list Event) : Prop :=
  Forall (fun e => match e with
                   | Sigwinch _ accepted => accepted = true
                   | CtxDone => True
                   end) events.

End Terminal.

(** **** InteractiveSession: [SetEnvs] *)

Module Env.
Section SetEnvs.

Variable E : Type.
(** [session.Setenv(k, v)]: the error of the request, if any. *)
Variable Setenv : string -> string -> option E.

(** [for k, v := range *envs { e := session.Setenv(k, v); if e != nil
    { err = e } }], the map given in the order [range] walks it. *)
Fixpoint rangeEnvs (envs : list (string * string)) (err : option E)
    (sent : list (string * string)) : option E * list (string * string) :=
  match envs with
  | [] => (err, sent)
  | (k, v) :: rest =>
      let e := Setenv k v in
      rangeEnvs rest (match e with Some _ => e | None => err end)
                (sent ++ [(k, v)])
  end.

(** [envs] is [None] for a nil pointer. *)
Definition SetEnvs (envs : option (list (string * string)))
    : option E * list (string * string) :=
  match envs with
  | Some m => rangeEnvs m None []
  | None => (None, [])
  end.

End SetEnvs.

End Env.

(** **** Authentication: [AuthByPrivateKeys], [AuthByPrivateKeysFromPaths] *)

Module Auth.
Section Keys.

Variables Key Signer E : Type.
Variable ParsePrivateKey : Key -> E + Signer.   (* ssh.ParsePrivateKey *)
Variable ReadFile : string -> E + Key.          (* ioutil.ReadFile *)

(** The loop of [AuthByPrivateKeys]; the result stands for
    [ssh.PublicKeys(signers...)]. *)
Fixpoint parseKeys (keys : list Key) (signers : list Signer)
    : E + list Signer :=
  match keys with
  | [] => inr signers
  | key :: rest =>
      match ParsePrivateKey key with
      | inl err => inl err
      | inr signer => parseKeys rest (signers ++ [signer])
      end
  end.

Definition AuthByPrivateKeys (keys : list Key) : E + list Signer :=
  parseKeys keys [].

(** The loop of [AuthByPrivateKeysFromPaths], with the files it has read. *)
Fixpoint loadKeys (files : list string) (signers : list Signer)
    (read : list string) : (E + list Signer) * list string :=
  match files with
  | [] => (inr signers, read)
  | file :: rest =>
      match ReadFile file with
      | inl err => (inl err, read ++ [file])
      | inr key =>
          match ParsePrivateKey key with
          | inl err => (inl err, read ++ [file])
          | inr signer => loadKeys rest (signers ++ [signer]) (read ++ [file])
          end
      end
  end.

Definition AuthByPrivateKeysFromPaths (files : list string)
    : (E + list Signer) * list string :=
  loadKeys files [] [].

(** The file loads: it can be read and its content parses to [signer]. *)
Definition loads (file : string) (signer : Signer) : Prop :=
  exists key, ReadFile file = inr key /\ ParsePrivateKey key = inr signer.

Definition fails (file : string) (err : E) : Prop :=
  ReadFile file = inl err
  \/ exists key, ReadFile file = inr key /\ ParsePrivateKey key = inl err.

End Keys.

End Auth.

(** ** Part II: the properties *)

(** *** StreamCopier *)

Section StreamCopierFacts.
Import StreamCopier.

Lemma wrap64_small (z : Z) : - 2 ^ 63 <= z < 2 ^ 63 -> wrap64 z = z.
Proof.
  intros Hz. unfold wrap64.
  rewrite Z.mod_small by lia. lia.
Qed.

Lemma checkWrite_whole (p : bytes) :
  checkWrite (Z.of_nat (length p)) (Z.of_nat (length p), None)
  = (Z.of_nat (length p), None).
Proof.
  unfold checkWrite.
  destruct (Z.ltb_spec (Z.of_nat (length p)) 0); [lia|].
  destruct (Z.ltb_spec (Z.of_nat (length p)) (Z.of_nat (length p))); [lia|].
  reflexivity.
Qed.

Lemma produced_cons_nil chunk rest :
  produced ((chunk, None) :: rest) = chunk ++ produced rest.
Proof. reflexivity. Qed.

(** The loop over a writer that takes every chunk whole, with a signal
    that never fires: everything the reader hands out reaches the writer,
    in order, and is counted. *)
Lemma copyLoop_faithful v dst size reads :
  faithful dst ->
  Forall (fun r => Z.of_nat (length r.1) <= size) reads ->
  forall io written,
    0 <= written ->
    written + Z.of_nat (length (produced reads)) < 2 ^ 63 ->
    exists io',
      copyLoop v dst size reads Never io written
      = (Returned (written + Z.of_nat (length (produced reads)))
                  (readError (terminal reads)), io')
      /\ concat (io_dst io') = concat (io_dst io) ++ produced reads.
Proof.
  intros Hdst Hfit.
  induction Hfit as [|[chunk er] rest Hchunk _ IH]; intros io written Hw Hlt.
  - exists (did_read io). simpl. rewrite Z.add_0_r, app_nil_r. done.
  - cbn [copyLoop ctx_done ctx_next]. simpl in Hchunk.
    destruct (Z.ltb_spec 0 (Z.of_nat (length chunk))) as [Hpos|Hzero].
    + destruct (Z.ltb_spec size (Z.of_nat (length chunk))); [lia|].
      rewrite Hdst, checkWrite_whole, Z.eqb_refl. cbn [negb].
      assert (Hlen : Z.of_nat (length (produced ((chunk, er) :: rest)))
                     >= Z.of_nat (length chunk)).
      { destruct er; simpl; rewrite ?length_app; lia. }
      rewrite wrap64_small by lia.
      destruct er as [e|].
      * eexists. split; [reflexivity|].
        destruct v; simpl; rewrite concat_app; simpl; by rewrite app_nil_r.
      * rewrite produced_cons_nil, length_app in Hlt.
        destruct (IH (did_write chunk (echo v chunk (did_read io)))
                     (written + Z.of_nat (length chunk))) as (io' & Hrun & Hlog);
          [lia|lia|].
        exists io'. rewrite Hrun, Hlog, produced_cons_nil, length_app.
        split; [cbn [terminal]; do 2 f_equal; lia|].
        destruct v; simpl; rewrite concat_app; simpl;
          by rewrite app_nil_r, <-app_assoc.
    + assert (chunk = []) as -> by (destruct chunk; [done|simpl in Hzero; lia]).
      destruct er as [e|].
      * eexists. split; [simpl; by rewrite Z.add_0_r|].
        simpl. by rewrite app_nil_r.
      * destruct (IH (did_read io) written) as (io' & Hrun & Hlog);
          [lia|simpl in Hlt; lia|].
        exists io'. rewrite Hrun. simpl. split; [done|]. by rewrite Hlog.
Qed.

(** The whole call on a plain reader and a plain writer. *)
Lemma copy_plain (v : Variant) (dst : Sink) (src : Source) (n : nat) :
  src_writeTo src = None ->
  dst_readFrom dst = None ->
  faithful dst ->
  Forall (fun r => (length r.1 <= n)%nat) (src_reads src) ->
  Z.of_nat (length (produced (src_reads src))) < 2 ^ 63 ->
  exists io,
    CopyBufferWithContext v dst src (Some n) Never io0
    = (Returned (Z.of_nat (length (produced (src_reads src))))
                (readError (terminal (src_reads src))), io)
    /\ concat (io_dst io) = produced (src_reads src).
Proof.
  intros HwriteTo HreadFrom Hdst Hfit Hlen.
  unfold CopyBufferWithContext. rewrite HwriteTo, HreadFrom. cbn [bufLen].
  destruct (copyLoop_faithful v dst (Z.of_nat n) (src_reads src) Hdst)
    with (io := io0) (written := 0) as (io & Hrun & Hlog); [|lia|lia|].
  { eapply Forall_impl; [exact Hfit|]. intros r Hr. simpl in *. lia. }
  exists io. by rewrite Hrun, Hlog.
Qed.

(** C1. For every buffer of at least one byte (also the one allocated for
    a nil [buf]) and every dst and src whose methods keep to their io
    contracts, with a cancellation signal that never fires,
    [CopyBufferWithContext] passes to [dst] exactly the bytes the reader
    produces, in order, returns their number as [written] (a number an int64
    holds), and returns a nil error when the reader ended with io.EOF, the
    reader's error otherwise.  The contracts: the [WriteTo] of src, or else
    the [ReadFrom] of dst, to which the code hands the whole copy, delivers
    what the reader produces; with neither, the writer takes each chunk
    whole and a read returns at most a buffer. *)
Theorem copy_reproduces_source (v : Variant) (dst : Sink) (src : Source)
    (buf : option nat) :
  1 <= bufLen buf src ->
  (forall writeTo,
      src_writeTo src = Some writeTo -> delivers (src_reads src) writeTo) ->
  (forall readFrom,
      src_writeTo src = None -> dst_readFrom dst = Some readFrom ->
      delivers (src_reads src) (readFrom src)) ->
  (src_writeTo src = None -> dst_readFrom dst = None ->
   faithful dst
   /\ Forall (fun r => Z.of_nat (length r.1) <= bufLen buf src) (src_reads src)) ->
  Z.of_nat (length (produced (src_reads src))) < 2 ^ 63 ->
  exists err io,
    CopyBufferWithContext v dst src buf Never io0
    = (Returned (Z.of_nat (length (produced (src_reads src)))) err, io)
    /\ concat (io_dst io) = produced (src_reads src)
    /\ (terminal (src_reads src) = EOF -> err = None)
    /\ (terminal (src_reads src) <> EOF -> err = Some (terminal (src_reads src))).
Proof.
  intros _ HwriteTo HreadFrom Hplain Hlen.
  assert (Herr : (terminal (src_reads src) = EOF
                  -> readError (terminal (src_reads src)) = None)
                 /\ (terminal (src_reads src) <> EOF
                     -> readError (terminal (src_reads src))
                        = Some (terminal (src_reads src)))).
  { split; [by intros ->|by destruct (terminal (src_reads src))]. }
  unfold CopyBufferWithContext.
  destruct (src_writeTo src) as [writeTo|].
  { destruct (HwriteTo writeTo eq_refl io0) as (io & Hrun & Hlog).
    exists (readError (terminal (src_reads src))), io.
    rewrite Hrun. unfold lift. simpl. split; [done|]. by split. }
  destruct (dst_readFrom dst) as [readFrom|].
  { destruct (HreadFrom readFrom eq_refl eq_refl io0) as (io & Hrun & Hlog).
    exists (readError (terminal (src_reads src))), io.
    rewrite Hrun. unfold lift. simpl. split; [done|]. by split. }
  destruct (Hplain eq_refl eq_refl) as [Hdst Hfit].
  destruct (copyLoop_faithful v dst (bufLen buf src) (src_reads src) Hdst Hfit
              io0 0) as (io & Hrun & Hlog); [lia|lia|].
  exists (readError (terminal (src_reads src))), io.
  rewrite Hrun, Hlog. split; [done|]. by split.
Qed.

(** The copy loop with a buffer of four bytes, and the same bytes through
    the [ReadFrom] of the writer with a nil buffer. *)
Lemma copy_reproduces_source_witness :
  (exists err io,
      CopyBufferWithContext DirectGo plainSink (plainSource helloReads)
                            (Some 4%nat) Never io0
      = (Returned 5 err, io)
      /\ concat (io_dst io) = hello
      /\ (EOF = EOF -> err = None)
      /\ (EOF <> EOF -> err = Some EOF))
  /\ (exists err io,
         CopyBufferWithContext DirectGo tcpSink (plainSource helloReads)
                               None Never io0
         = (Returned 5 err, io)
         /\ concat (io_dst io) = hello
         /\ (EOF = EOF -> err = None)
         /\ (EOF <> EOF -> err = Some EOF)).
Proof.
  split.
  - apply (copy_reproduces_source DirectGo plainSink (plainSource helloReads)
             (Some 4%nat)).
    + simpl. lia.
    + intros writeTo H. discriminate H.
    + intros readFrom _ H. discriminate H.
    + intros _ _. split; [intros k p; reflexivity|].
      repeat constructor; simpl; lia.
    + reflexivity.
  - apply (copy_reproduces_source DirectGo tcpSink (plainSource helloReads) None).
    + by vm_compute.
    + intros writeTo H. discriminate H.
    + intros readFrom _ [= <-] [reads written echoed].
      eexists. split; [reflexivity|].
      simpl. rewrite !concat_app. simpl. by rewrite <-app_assoc.
    + intros _ H. discriminate H.
    + reflexivity.
Defined.

(** A reader over [data] that fills whatever buffer it is given: its
    results for buffers of [n >= 1] bytes cover [data] and end in io.EOF. *)
Lemma chunksOf_covers (n : nat) :
  (1 <= n)%nat ->
  forall fuel data,
    (length data <= fuel)%nat ->
    produced (chunksOf fuel n data) = data
    /\ terminal (chunksOf fuel n data) = EOF
    /\ Forall (fun r => (length r.1 <= n)%nat) (chunksOf fuel n data).
Proof.
  intros Hn. induction fuel as [|fuel IH]; intros data Hlen.
  - destruct data; [done|simpl in Hlen; lia].
  - destruct data as [|b data]; [done|].
    cbn [chunksOf].
    destruct (IH (drop n (b :: data))) as (Hprod & Hterm & Hfit).
    { rewrite length_drop. simpl in *. lia. }
    cbn [produced terminal]. rewrite Hprod, Hterm, take_drop.
    split; [done|]. split; [done|]. constructor; [|done].
    simpl. rewrite length_take. lia.
Qed.

(** Whatever the size [n >= 1] of the buffer, copying from such a reader
    hands exactly [data] to the writer and returns (len(data), nil). *)
Lemma copy_any_buffer_size (v : Variant) (dst : Sink) (n : nat) (data : bytes) :
  (1 <= n)%nat ->
  dst_readFrom dst = None ->
  faithful dst ->
  Z.of_nat (length data) < 2 ^ 63 ->
  exists io,
    CopyBufferWithContext v dst (plainSource (chunksOf (length data) n data))
                          (Some n) Never io0
    = (Returned (Z.of_nat (length data)) None, io)
    /\ concat (io_dst io) = data.
Proof.
  intros Hn HreadFrom Hdst Hlen.
  destruct (chunksOf_covers n Hn (length data) data) as (Hprod & Hterm & Hfit);
    [done|].
  destruct (copy_plain v dst (plainSource (chunksOf (length data) n data)) n)
    as (io & Hrun & Hlog); try done.
  { simpl. by rewrite Hprod. }
  simpl in Hrun, Hlog. rewrite Hprod, Hterm in Hrun. rewrite Hprod in Hlog.
  by exists io.
Qed.

(** C2 fails on the code. The [WriteTo] and [ReadFrom] fast paths return
    before the signal is looked at: with a writer that has a ReadFrom
    method (here one that copies as io.Copy does, as a [*net.TCPConn] has)
    and the signal already fired before any read, all five bytes are still
    copied and the result is (5, nil), not zero bytes and the cancelled
    outcome. *)
Lemma cancelled_copy_bypassed :
  CopyBufferWithContext DirectGo tcpSink (plainSource helloReads)
                        (Some 4%nat) (DoneAfter 0) io0
  = (Returned 5 None, mkIO 2 [take 4 hello; drop 4 hello] [])
  /\ Returned 5 None <> cancelled DirectGo 0.
Proof. split; [reflexivity | discriminate]. Qed.

(** On a fast path the signal makes no difference at all. *)
Lemma fast_path_ignores_signal (v : Variant) (dst : Sink) (src : Source)
    (buf : option nat) (ctx : Ctx) (io : IO) :
  src_writeTo src <> None \/ dst_readFrom dst <> None ->
  CopyBufferWithContext v dst src buf ctx io
  = CopyBufferWithContext v dst src buf Never io.
Proof.
  unfold CopyBufferWithContext. intros [H|H].
  - by destruct (src_writeTo src).
  - destruct (src_writeTo src); [done|]. by destruct (dst_readFrom dst).
Qed.

Lemma copyLoop_cancelled v dst size reads io written :
  copyLoop v dst size reads (DoneAfter 0) io written = (cancelled v written, io).
Proof. destruct reads as [|[chunk er] rest]; reflexivity. Qed.

(** A signal that fires after [k] turns of the loop: with a writer that
    takes every chunk whole and [k] reads that each gave a chunk and no
    error, the call returns the bytes written in those [k] turns with the
    cancelled outcome, and what reached [dst] is those bytes. *)
Lemma cancel_returns_written_so_far v dst size :
  faithful dst ->
  forall k reads io written,
    (k <= length reads)%nat ->
    Forall (fun r => r.2 = None /\ Z.of_nat (length r.1) <= size) (take k reads) ->
    0 <= written ->
    written + Z.of_nat (length (produced (take k reads))) < 2 ^ 63 ->
    exists io',
      copyLoop v dst size reads (DoneAfter k) io written
      = (cancelled v (written + Z.of_nat (length (produced (take k reads)))), io')
      /\ concat (io_dst io') = concat (io_dst io) ++ produced (take k reads).
Proof.
  intros Hdst. induction k as [|k IH]; intros reads io written Hk Hfit Hw Hlt.
  - exists io. rewrite copyLoop_cancelled, take_0. simpl.
    by rewrite Z.add_0_r, app_nil_r.
  - destruct reads as [|[chunk er] rest]; [simpl in Hk; lia|].
    rewrite firstn_cons in Hfit, Hlt |- *.
    inversion Hfit as [|? ? [Her Hchunk] Hfit']; subst. simpl in Her, Hchunk.
    subst er. rewrite produced_cons_nil, length_app in Hlt |- *.
    cbn [copyLoop ctx_done ctx_next].
    destruct (Z.ltb_spec 0 (Z.of_nat (length chunk))) as [Hpos|Hzero].
    + destruct (Z.ltb_spec size (Z.of_nat (length chunk))); [lia|].
      rewrite Hdst, checkWrite_whole, Z.eqb_refl. cbn [negb].
      rewrite wrap64_small by lia.
      destruct (IH rest (did_write chunk (echo v chunk (did_read io)))
                   (written + Z.of_nat (length chunk)))
        as (io' & Hrun & Hlog); [simpl in Hk; lia|done|lia|lia|].
      exists io'. rewrite Hrun, Hlog. split; [do 2 f_equal; lia|].
      destruct v; simpl; rewrite concat_app; simpl;
        by rewrite app_nil_r, <-app_assoc.
    + assert (chunk = []) as -> by (destruct chunk; [done|simpl in Hzero; lia]).
      destruct (IH rest (did_read io) written) as (io' & Hrun & Hlog);
        [simpl in Hk; lia|done|lia|simpl in Hlt; lia|].
      exists io'. rewrite Hrun, Hlog. simpl. split; [done|done].
Qed.

(** The loop path honours the signal. When neither fast path applies (src
    has no WriteTo, dst has no ReadFrom) and the signal has fired before the first read,
    [CopyBufferWithContext] returns at once, with no Read and no Write,
    zero bytes written and the cancelled outcome; and whatever the state
    of the loop, an iteration that finds the signal fired returns the
    bytes written so far with that outcome and does no further I/O.  The
    cancelled outcome is the error interruptedErr in direct.go, which is
    none of io.EOF, io.ErrShortWrite, errInvalidWrite, and a nil error in
    client.go. *)
Theorem cancellation_outcome (v : Variant) (dst : Sink) (src : Source)
    (buf : option nat) (io : IO) :
  src_writeTo src = None ->
  dst_readFrom dst = None ->
  CopyBufferWithContext v dst src buf (DoneAfter 0) io = (cancelled v 0, io)
  /\ (forall size reads io' written,
        copyLoop v dst size reads (DoneAfter 0) io' written
        = (cancelled v written, io'))
  /\ (forall written,
        cancelled DirectGo written = Returned written (Some interruptedErr)
        /\ cancelled ClientGo written = Returned written None)
  /\ interruptedErr <> EOF
  /\ interruptedErr <> ErrShortWrite
  /\ interruptedErr <> errInvalidWrite.
Proof.
  intros HwriteTo HreadFrom. unfold CopyBufferWithContext.
  rewrite HwriteTo, HreadFrom.
  repeat split; try discriminate; auto using copyLoop_cancelled.
Qed.

Lemma cancellation_outcome_witness :
  CopyBufferWithContext DirectGo plainSink (plainSource helloReads)
                        (Some 4%nat) (DoneAfter 0) io0
  = (Returned 0 (Some interruptedErr), io0).
Proof.
  apply (cancellation_outcome DirectGo plainSink (plainSource helloReads)
                              (Some 4%nat) io0); reflexivity.
Defined.

(** The two variants differ on the cancellation branch: with the signal
    fired before the first read, client.go returns (0, nil) and direct.go
    returns (0, interruptedErr). *)
Lemma variants_differ_on_cancel :
  CopyBufferWithContext ClientGo plainSink (plainSource helloReads)
                        (Some 4%nat) (DoneAfter 0) io0
  <> CopyBufferWithContext DirectGo plainSink (plainSource helloReads)
                           (Some 4%nat) (DoneAfter 0) io0.
Proof. discriminate. Qed.

(** direct.go also writes every chunk to os.Stdout; client.go does not. *)
Lemma direct_go_echoes_chunks :
  io_stdout (CopyBufferWithContext DirectGo plainSink (plainSource helloReads)
                                   (Some 4%nat) Never io0).2
  = [take 4 hello; drop 4 hello]
  /\ io_stdout (CopyBufferWithContext ClientGo plainSink (plainSource helloReads)
                                      (Some 4%nat) Never io0).2
     = [].
Proof. split; reflexivity. Qed.

(** C10 fails on the code. The two variants are not equivalent: with the
    signal fired before the first read client.go returns (0, nil) and
    direct.go returns (0, interruptedErr); and direct.go writes every chunk
    it copies to os.Stdout as well as to dst, which client.go does not. *)
Theorem variants_diverge :
  CopyBufferWithContext ClientGo plainSink (plainSource helloReads)
                        (Some 4%nat) (DoneAfter 0) io0
  = (Returned 0 None, io0)
  /\ CopyBufferWithContext DirectGo plainSink (plainSource helloReads)
                           (Some 4%nat) (DoneAfter 0) io0
     = (Returned 0 (Some interruptedErr), io0)
  /\ io_stdout (CopyBufferWithContext ClientGo plainSink
                   (plainSource helloReads) (Some 4%nat) Never io0).2
     = []
  /\ io_stdout (CopyBufferWithContext DirectGo plainSink
                   (plainSource helloReads) (Some 4%nat) Never io0).2
     = [take 4 hello; drop 4 hello].
Proof. repeat split. Qed.

Local Ltac agree :=
  repeat split; simpl in *;
  first [ congruence
        | by left
        | right; eexists; split; reflexivity
        | intros ->; simpl in *; congruence ].

Lemma copyLoop_variants dst size reads :
  forall ctx ioc iod written,
    same_traffic ioc iod ->
    same_traffic (copyLoop ClientGo dst size reads ctx ioc written).2
                 (copyLoop DirectGo dst size reads ctx iod written).2
    /\ same_but_cancel (copyLoop ClientGo dst size reads ctx ioc written).1
                       (copyLoop DirectGo dst size reads ctx iod written).1
    /\ (ctx = Never ->
        (copyLoop ClientGo dst size reads ctx ioc written).1
        = (copyLoop DirectGo dst size reads ctx iod written).1).
Proof.
  induction reads as [|[chunk er] rest IH]; intros ctx ioc iod written [Hr Hd].
  - cbn [copyLoop]. destruct (ctx_done ctx) eqn:Hdone; agree.
  - cbn [copyLoop]. destruct (ctx_done ctx) eqn:Hdone; [agree|].
    assert (Hafter : forall ioc' iod' w,
               same_traffic ioc' iod' ->
               let rc := match er with
                         | Some e => (Returned w (readError e), ioc')
                         | None => copyLoop ClientGo dst size rest (ctx_next ctx) ioc' w
                         end in
               let rd := match er with
                         | Some e => (Returned w (readError e), iod')
                         | None => copyLoop DirectGo dst size rest (ctx_next ctx) iod' w
                         end in
               same_traffic rc.2 rd.2 /\ same_but_cancel rc.1 rd.1
               /\ (ctx = Never -> rc.1 = rd.1)).
    { intros ioc' iod' w [Hr' Hd']. destruct er as [e|]; [agree|].
      destruct (IH (ctx_next ctx) ioc' iod' w) as ([? ?] & ? & Hnever); [done|].
      repeat split; try done. intros ->. by apply Hnever. }
    destruct (0 <? Z.of_nat (length chunk)).
    + destruct (size <? Z.of_nat (length chunk)); [agree|].
      simpl. rewrite Hd.
      destruct (checkWrite (Z.of_nat (length chunk))
                  (dst_write dst (length (io_dst iod)) chunk)) as [nw [e|]];
        [agree|].
      destruct (negb (Z.of_nat (length chunk) =? nw)); [agree|].
      apply Hafter. split; simpl; congruence.
    + apply Hafter. split; simpl; congruence.
Qed.

(** What the two variants do agree on. For every dst, src, buffer and
    cancellation signal the
    two variants make the same reads and hand the same chunks to dst in
    the same order, and they return the same (written, err) pair except
    when the run ends on the cancellation branch, where they return the
    same [written] with a nil error in client.go and interruptedErr in
    direct.go; with a signal that never fires the returned pairs are
    equal. *)
Theorem variants_agree_up_to_cancel (dst : Sink) (src : Source)
    (buf : option nat) (ctx : Ctx) (io : IO) :
  same_traffic (CopyBufferWithContext ClientGo dst src buf ctx io).2
               (CopyBufferWithContext DirectGo dst src buf ctx io).2
  /\ same_but_cancel (CopyBufferWithContext ClientGo dst src buf ctx io).1
                     (CopyBufferWithContext DirectGo dst src buf ctx io).1
  /\ (CopyBufferWithContext ClientGo dst src buf Never io).1
     = (CopyBufferWithContext DirectGo dst src buf Never io).1.
Proof.
  unfold CopyBufferWithContext.
  destruct (src_writeTo src) as [writeTo|].
  { repeat split; by left. }
  destruct (dst_readFrom dst) as [readFrom|].
  { repeat split; by left. }
  destruct (copyLoop_variants dst (bufLen buf src) (src_reads src) ctx io io 0)
    as (Hio & Hres & _); [done|].
  destruct (copyLoop_variants dst (bufLen buf src) (src_reads src) Never io io 0)
    as (_ & _ & Hnever); [done|].
  repeat split; try apply Hio; auto.
Qed.

End StreamCopierFacts.

(** *** ForwardBinding *)

Section ForwardBindingFacts.
Import ForwardBinding.

Lemma bind_inv_init : bind_inv init.
Proof. repeat split. Qed.

Lemma bind_inv_step t s s' : bind_inv s -> step t s = Some s' -> bind_inv s'.
Proof.
  destruct s as [m a b w lc rc]. unfold bind_inv.
  destruct t, m, a, b; simpl; intros (Hm & Ha & Hb) Hstep;
    try discriminate;
    try (destruct (Z.eqb_spec w 0); [|discriminate]);
    inversion Hstep; subst; clear Hstep;
    simpl in *; unfold both_closed in *; simpl in *;
    intuition (try lia; try congruence).
Qed.

Lemma bind_inv_run sched :
  forall s s', bind_inv s -> bindConnsWithBuffer sched s = Some s' -> bind_inv s'.
Proof.
  induction sched as [|t sched IH]; intros s s' Hinv Hrun; simpl in Hrun.
  - by inversion Hrun; subst.
  - destruct (step t s) as [s1|] eqn:Hstep; [|discriminate].
    simpl in Hrun. eauto using bind_inv_step.
Qed.

(** A goroutine whose copy has returned closes both streams within its next
    two steps, whatever the other threads do or do not do. *)
Lemma closes_follow_copy (t : Thread) (p : pc) (s : State) :
  bind_inv s ->
  (t = ToRemote /\ p = toRemote s) \/ (t = ToLocal /\ p = toLocal s) ->
  copy_ended p = true ->
  exists k s',
    (k <= 2)%nat
    /\ bindConnsWithBuffer (replicate k t) s = Some s'
    /\ both_closed s'.
Proof.
  destruct s as [m a b w lc rc]. unfold bind_inv, both_closed. simpl.
  intros (_ & Ha & Hb) [[-> ->]|[-> ->]] Hended.
  - destruct a; try discriminate; simpl in Ha; unfold both_closed in Ha;
      simpl in Ha.
    + exists 2%nat. eexists. split; [lia|]. split; [reflexivity|]. simpl. lia.
    + exists 1%nat. eexists. split; [lia|]. split; [reflexivity|]. simpl. lia.
    + exists 0%nat. eexists. split; [lia|]. split; [reflexivity|]. simpl. lia.
    + exists 0%nat. eexists. split; [lia|]. split; [reflexivity|]. simpl. lia.
  - destruct b; try discriminate; simpl in Hb; unfold both_closed in Hb;
      simpl in Hb.
    + exists 2%nat. eexists. split; [lia|]. split; [reflexivity|]. simpl. lia.
    + exists 1%nat. eexists. split; [lia|]. split; [reflexivity|]. simpl. lia.
    + exists 0%nat. eexists. split; [lia|]. split; [reflexivity|]. simpl. lia.
    + exists 0%nat. eexists. split; [lia|]. split; [reflexivity|]. simpl. lia.
Qed.

(** C3. In every state [bindConnsWithBuffer] can reach, whatever the order
    in which its caller and its two copy goroutines take their steps and
    whatever made a copy end: a goroutine whose copy has ended closes both
    streams within its next two steps, and gets to its [wg.Done()] only
    through [lconn.Close()] and [rconn.Close()], so from then on both
    streams are closed; and once the call has returned both goroutines have
    exited (none is left copying) and both streams are closed. *)
Theorem bind_closes_both_and_joins (sched : list Thread) (s : State) :
  bindConnsWithBuffer sched init = Some s ->
  (copy_ended (toRemote s) = true ->
   exists k s',
     (k <= 2)%nat
     /\ bindConnsWithBuffer (replicate k ToRemote) s = Some s'
     /\ both_closed s')
  /\ (copy_ended (toLocal s) = true ->
      exists k s',
        (k <= 2)%nat
        /\ bindConnsWithBuffer (replicate k ToLocal) s = Some s'
        /\ both_closed s')
  /\ (past_closes (toRemote s) = true \/ past_closes (toLocal s) = true ->
      both_closed s)
  /\ (main s = HasReturned ->
      terminated (toRemote s) = true /\ terminated (toLocal s) = true
      /\ both_closed s).
Proof.
  intros Hrun.
  pose proof (bind_inv_run sched init s bind_inv_init Hrun) as Hinv.
  split; [|split].
  - intros Hended. eapply closes_follow_copy; eauto.
  - intros Hended. eapply closes_follow_copy; eauto.
  - destruct Hinv as (Hm & Ha & Hb). split.
    + intros [Hp|Hp]; [destruct (toRemote s)|destruct (toLocal s)];
        try discriminate; assumption.
    + intros Hret. rewrite Hret in Hm. destruct Hm as (_ & Hra & Hrb).
      rewrite Hra in *. rewrite Hrb in *. auto.
Qed.

(** Two reachable states: the one in which the remote->l copy has just
    returned while the other copy is still running, and the one in which
    the call has returned. *)
Lemma bind_closes_both_and_joins_witness :
  (exists k s',
      (k <= 2)%nat
      /\ bindConnsWithBuffer (replicate k ToLocal)
           (mkState AtWait Copying ClosingLocal 2 0 0) = Some s'
      /\ both_closed s')
  /\ (terminated Exited = true /\ terminated Exited = true
      /\ both_closed (mkState HasReturned Exited Exited 0 2 2)).
Proof.
  split.
  - apply (bind_closes_both_and_joins [Caller; Caller; Caller; ToLocal]
             (mkState AtWait Copying ClosingLocal 2 0 0));
      reflexivity.
  - apply (bind_closes_both_and_joins remote_side_ends_first
             (mkState HasReturned Exited Exited 0 2 2));
      reflexivity.
Defined.

(** The call can return: a full run, the remote->l copy ending first. *)
Lemma bind_returns :
  bindConnsWithBuffer remote_side_ends_first init
  = Some (mkState HasReturned Exited Exited 0 2 2).
Proof. reflexivity. Qed.

(** While a copy is running the call does not return. *)
Lemma bind_blocks_while_copying (s : State) :
  main s = AtWait -> 0 < wg s -> step Caller s = None.
Proof.
  intros Hm Hwg. unfold step. rewrite Hm.
  destruct (Z.eqb_spec (wg s) 0); [lia|done].
Qed.

End ForwardBindingFacts.

(** *** Director *)

Section DirectorFacts.
Import Director.

Lemma leaked_step (c : conn) a s s' :
  leaked c s -> step a s = Some s' -> leaked c s'.
Proof.
  destruct s as [acc fr cl g]. unfold leaked, is_open, unserviced. simpl.
  intros [[Hfresh Hopen] Hnone] Hstep.
  destruct a as [| | |i|i|i]; simpl in Hstep.
  - destruct acc; inversion Hstep; subst; simpl; auto.
  - destruct acc; inversion Hstep; subst; simpl; auto.
  - destruct acc; inversion Hstep; subst; simpl.
    split; [split; [lia|done]|].
    apply Forall_app. split; [done|]. constructor; [simpl; lia|constructor].
  - destruct (g !! i) as [[l|d st l r|]|] eqn:Hi; inversion Hstep; subst; simpl.
    split; [done|]. apply Forall_insert; [done|simpl; tauto].
  - destruct (g !! i) as [[l|d st l r|]|] eqn:Hi; inversion Hstep; subst; simpl.
    pose proof (Forall_lookup_1 _ _ _ _ Hnone Hi) as Hl. simpl in Hl.
    split; [split; [lia|done]|].
    apply Forall_app. split; [apply Forall_insert; [done|simpl; tauto]|].
    repeat constructor; simpl; lia.
  - destruct (g !! i) as [[l|d st l r|]|] eqn:Hi; try discriminate.
    pose proof (Forall_lookup_1 _ _ _ _ Hnone Hi) as Hl. simpl in Hl.
    destruct st; inversion Hstep; subst; simpl;
      (split; [split; [done|]|apply Forall_insert; [done|simpl; tauto]]);
      first [ done
            | rewrite elem_of_union, elem_of_singleton; intros [?|?];
              [lia|done] ].
Qed.

Lemma leaked_run (c : conn) sched :
  forall s s', leaked c s -> RedirectToWithBuffer sched s = Some s' -> leaked c s'.
Proof.
  induction sched as [|a sched IH]; intros s s' Hleak Hrun; simpl in Hrun.
  - by inversion Hrun; subst.
  - destruct (step a s) as [s1|] eqn:Hstep; [|discriminate].
    simpl in Hrun. eauto using leaked_step.
Qed.

Lemma run_app sched1 sched2 s :
  RedirectToWithBuffer (sched1 ++ sched2) s
  = s1 ← RedirectToWithBuffer sched1 s; RedirectToWithBuffer sched2 s1.
Proof.
  revert s. induction sched1 as [|a sched1 IH]; intros s; simpl; [done|].
  destruct (step a s); simpl; auto.
Qed.

(** The exit path of a copy goroutine closes both of its connections. *)
Lemma copier_exit_closes_both (i : nat) (d : Direction) (l r : conn) (s : State) :
  gs s !! i = Some (Copier d Copying l r) ->
  exists s',
    RedirectToWithBuffer [Advance i; Advance i; Advance i] s = Some s'
    /\ l ∈ closed s' /\ r ∈ closed s' /\ gs s' !! i = Some Gone.
Proof.
  intros Hi. pose proof (lookup_lt_Some _ _ _ Hi) as Hlt.
  eexists. split.
  - cbn [RedirectToWithBuffer step]. rewrite Hi. cbn [mbind option_bind gs].
    rewrite list_lookup_insert_eq by done.
    cbn [mbind option_bind gs]. rewrite list_lookup_insert_eq
      by (by rewrite length_insert).
    reflexivity.
  - simpl. split; [set_solver|]. split; [set_solver|].
    rewrite list_lookup_insert_eq; [done|].
    by rewrite !length_insert.
Qed.

(** C4 fails on the code. In [RedirectToWithBuffer], when the dial for an
    accepted connection is refused the goroutine returns without closing
    the connection: after that, whatever the loop and the other goroutines
    go on to do, the accepted local connection (number 0 here) stays open
    and no goroutine holds it, so it is never closed. *)
Theorem refused_dial_leaks_local_conn (sched : list Action) (s : State) :
  RedirectToWithBuffer (dial_refused ++ sched) init = Some s ->
  is_open 0%nat s /\ unserviced 0%nat s.
Proof.
  rewrite run_app. simpl. intros Hrun.
  eapply (leaked_run 0%nat); [|exact Hrun].
  repeat split; [simpl; lia|set_solver|repeat constructor; simpl; tauto].
Qed.

Lemma refused_dial_leaks_local_conn_witness :
  is_open 0%nat second_conn_closed /\ unserviced 0%nat second_conn_closed.
Proof.
  apply (refused_dial_leaks_local_conn second_conn_served).
  reflexivity.
Defined.

(** C5 fails on the code. In [DirectTcpToWithBuffer], when the hook
    returns an error for an accepted connection the function returns: no
    goroutine is started for that connection and the turns that follow
    (further connections waiting in the listener) are never reached. *)
Theorem failing_hook_ends_loop (newConn : NewConnCallback) (lconn : conn)
    (rest : list Turn) (spawned : list conn) :
  newConn lconn = None ->
  DirectTcpToWithBuffer (Some newConn) (Accepted lconn :: rest) spawned
  = mkLoop true spawned rest.
Proof. intros Hcb. simpl. by rewrite Hcb. Qed.

Lemma failing_hook_ends_loop_witness :
  DirectTcpToWithBuffer (Some failing_hook)
                        [Accepted 0%nat; Accepted 1%nat] []
  = mkLoop true [] [Accepted 1%nat].
Proof.
  apply (failing_hook_ends_loop failing_hook 0%nat [Accepted 1%nat] []).
  reflexivity.
Defined.

End DirectorFacts.

(** *** KeepAlive *)

Section KeepAliveFacts.
Import KeepAlive.

Lemma foreverLoop_ticks turns :
  forall sent,
    Forall (fun t => t <> CtxDone) turns ->
    foreverLoop turns sent = mkReport (length turns + sent) Waiting.
Proof.
  induction turns as [|t turns IH]; intros sent Hticks; [done|].
  inversion Hticks as [|? ? Ht Hrest]; subst.
  destruct t as [|failed]; [done|]. simpl.
  rewrite IH by done. f_equal. lia.
Qed.

(** [n] failed sends leave the counting loop running when the budget was
    at least [n]. *)
Lemma countingLoop_failures (n : nat) :
  forall budget rest sent,
    Z.of_nat n <= budget ->
    countingLoop budget (failures n ++ rest) sent
    = countingLoop (budget - Z.of_nat n) rest (n + sent).
Proof.
  induction n as [|n IH]; intros budget rest sent Hle.
  - simpl. f_equal. lia.
  - cbn [failures replicate app countingLoop].
    destruct (Z.leb_spec budget 0); [lia|].
    fold (failures n). rewrite IH by lia. f_equal; lia.
Qed.

(** C6 fails on the code in its first half. With [maxErrRetries = n > 0]
    and every send failing, the goroutine is still waiting for the next
    tick after [n] failed sends, sends a request once more, and stops on
    that failure, the one numbered [n + 1].  With [maxErrRetries <= 0] a
    request is sent on every tick, failed or not, for as long as the
    context is not cancelled. *)
Theorem keepalive_stops_one_failure_late (interval : Z) (n : nat)
    (rest : list Turn) :
  0 < interval ->
  (0 < n)%nat ->
  KeepAlive interval (Z.of_nat n) (failures n) = mkReport n Waiting
  /\ KeepAlive interval (Z.of_nat n) (failures (S n) ++ rest)
     = mkReport (S n) GaveUp
  /\ (forall budget turns,
        budget <= 0 ->
        Forall (fun t => t <> CtxDone) turns ->
        KeepAlive interval budget turns = mkReport (length turns) Waiting).
Proof.
  intros Hint Hn. unfold KeepAlive.
  destruct (Z.leb_spec interval 0); [lia|].
  destruct (Z.leb_spec (Z.of_nat n) 0); [lia|].
  split; [|split].
  - rewrite <-(app_nil_r (failures n)), countingLoop_failures by lia.
    simpl. f_equal. lia.
  - replace (failures (S n) ++ rest)
      with (failures n ++ Tick true :: rest).
    + rewrite countingLoop_failures by lia.
      rewrite Z.sub_diag. simpl. f_equal. lia.
    + unfold failures. change (Tick true :: rest) with ([Tick true] ++ rest).
      rewrite app_assoc. f_equal.
      change [Tick true] with (replicate 1 (Tick true)).
      rewrite <-replicate_add. f_equal. lia.
  - intros budget turns Hb Hticks.
    destruct (Z.leb_spec budget 0); [|lia].
    rewrite foreverLoop_ticks by done. f_equal. lia.
Qed.

Lemma keepalive_stops_one_failure_late_witness :
  KeepAlive 1 1 [Tick true] = mkReport 1 Waiting
  /\ KeepAlive 1 1 [Tick true; Tick true; Tick true] = mkReport 2 GaveUp.
Proof.
  destruct (keepalive_stops_one_failure_late 1 1 [Tick true])
    as (Hone & Htwo & _); [lia|lia|].
  split; [exact Hone|exact Htwo].
Defined.

End KeepAliveFacts.

(** *** HostTrustDecider *)

Section HostTrustFacts.
Import HostTrust.

Context {PublicKey : Type} (Line : list string -> PublicKey -> string).

(** Whatever is not on record is refused before any question is asked. *)
Lemma not_found_is_refused (kw : KnownHostsChecker) (found : Lookup)
    (err : error) (hostname remote : string) (key : PublicKey) (w : World) :
  files kw <> [] ->
  callback found = Some err ->
  KnownHostsCheck PublicKey Line kw None found hostname remote key w
  = (Some err, w).
Proof.
  intros Hfiles Hcb. unfold KnownHostsCheck.
  destruct (files kw); [done|]. by rewrite Hcb.
Qed.

(** C7 fails on the code. For a host with no record in the trust store
    (the callback of knownhosts answers with a KeyError that lists no
    known key), [KnownHostsCheck] returns that error at once, in
    interactive mode as well: nothing is printed, no answer is read, the
    answers waiting on standard input make no difference. *)
Theorem unknown_host_fails_without_prompt (kw : KnownHostsChecker)
    (hostname remote : string) (key : PublicKey) (w : World) :
  files kw <> [] ->
  Interactively kw = true ->
  KnownHostsCheck PublicKey Line kw None NotFound hostname remote key w
  = (Some (KeyError []), w).
Proof. intros Hfiles _. by apply not_found_is_refused. Qed.

(** The questions are asked for a host that is on record: this is where
    "No host key found" is printed. *)
Lemma known_host_is_asked (file0 : string) (hostname remote : string)
    (key : PublicKey) :
  KnownHostsCheck PublicKey Line (mkChecker [file0] true) None Found
                  hostname remote key (terminal ["no"])
  = (Some ErrUnknownHost,
     mkWorld [] [AskContinue [file0]] true true []).
Proof. reflexivity. Qed.

(** On that path, yes and yes append one line, made from the remote
    address and the key; yes and YES append nothing. *)
Lemma asked_yes_yes_appends (file0 : string) (hostname remote : string)
    (key : PublicKey) :
  KnownHostsCheck PublicKey Line (mkChecker [file0] true) None Found
                  hostname remote key (terminal ["yes"; "yes"])
  = (None,
     mkWorld [] [AskContinue [file0]; AskAppend hostname remote file0]
             true true [Line [remote] key +:+ newline]).
Proof. reflexivity. Qed.

Lemma asked_yes_YES_appends_nothing (file0 : string)
    (hostname remote : string) (key : PublicKey) :
  KnownHostsCheck PublicKey Line (mkChecker [file0] true) None Found
                  hostname remote key (terminal ["yes"; "YES"])
  = (None,
     mkWorld [] [AskContinue [file0]; AskAppend hostname remote file0]
             true true []).
Proof. reflexivity. Qed.

(** C8 fails on the code. For a host with no record, in interactive mode
    and with the answers yes and yes waiting, nothing is appended to the
    trust store and the connection is refused: the function returns the
    error of the lookup before it reads an answer. *)
Theorem unknown_host_is_never_persisted (kw : KnownHostsChecker)
    (hostname remote : string) (key : PublicKey) (w : World) :
  files kw <> [] ->
  Interactively kw = true ->
  stdin w = ["yes"; "yes"] ->
  let r := KnownHostsCheck PublicKey Line kw None NotFound
                           hostname remote key w in
  appended r.2 = appended w /\ stdin r.2 = ["yes"; "yes"] /\ r.1 <> None.
Proof.
  intros Hfiles _ Hin.
  rewrite (not_found_is_refused kw NotFound (KeyError [])) by done.
  simpl. by rewrite Hin.
Qed.

End HostTrustFacts.

Section HostTrustWitnesses.
Import HostTrust.

Lemma unknown_host_fails_without_prompt_witness :
  KnownHostsCheck TextKey textLine example_checker None NotFound
                  "example.org" "192.0.2.7:22" example_key
                  (terminal ["yes"; "yes"])
  = (Some (KeyError []), terminal ["yes"; "yes"]).
Proof.
  apply (unknown_host_fails_without_prompt textLine example_checker).
  - discriminate.
  - reflexivity.
Defined.

Lemma unknown_host_is_never_persisted_witness :
  let r := KnownHostsCheck TextKey textLine example_checker None NotFound
                           "example.org" "192.0.2.7:22" example_key
                           (terminal ["yes"; "yes"]) in
  appended r.2 = [] /\ stdin r.2 = ["yes"; "yes"] /\ r.1 <> None.
Proof.
  apply (unknown_host_is_never_persisted textLine example_checker
           "example.org" "192.0.2.7:22" example_key
           (terminal ["yes"; "yes"])).
  - discriminate.
  - reflexivity.
  - reflexivity.
Defined.

End HostTrustWitnesses.

(** ** Part III: further properties of the same code *)

(** *** StreamCopier: traffic, count and errors of the loop *)

Section CopierTrafficFacts.
Import StreamCopier CopierTraffic.

Lemma nonempty_cons (chunk : bytes) (rest : list bytes) :
  nonempty (chunk :: rest)
  = match chunk with [] => nonempty rest | _ => chunk :: nonempty rest end.
Proof. by destruct chunk. Qed.

Lemma nonempty_app (l1 l2 : list bytes) :
  nonempty (l1 ++ l2) = nonempty l1 ++ nonempty l2.
Proof.
  induction l1 as [|[|b c] l1 IH]; simpl; [done|done|]. by rewrite IH.
Qed.

Lemma io_dst_echo v chunk io : io_dst (echo v chunk io) = io_dst io.
Proof. by destruct v. Qed.

(** What the loop hands to [dst]: the non-empty chunks of the first [k]
    reads, for some [k]. *)
Lemma copyLoop_traffic v dst size reads :
  forall ctx io written,
    exists k,
      (k <= length reads)%nat
      /\ io_dst (copyLoop v dst size reads ctx io written).2
         = io_dst io ++ nonempty (map fst (take k reads)).
Proof.
  induction reads as [|[chunk er] rest IH]; intros ctx io written;
    cbn [copyLoop].
  - exists 0%nat. destruct (ctx_done ctx); simpl; by rewrite app_nil_r.
  - destruct (ctx_done ctx).
    { exists 0%nat. simpl. split; [lia|by rewrite app_nil_r]. }
    destruct (Z.ltb_spec 0 (Z.of_nat (length chunk))) as [Hpos|Hzero].
    + assert (Hone : nonempty [chunk] = [chunk])
        by (destruct chunk; [simpl in Hpos; lia|done]).
      destruct (size <? Z.of_nat (length chunk)).
      { exists 0%nat. simpl. split; [lia|by rewrite app_nil_r]. }
      destruct (checkWrite (Z.of_nat (length chunk))
                  (dst_write dst (length (io_dst (echo v chunk (did_read io))))
                             chunk)) as [nw [e|]].
      { exists 1%nat. split; [simpl; lia|].
        rewrite firstn_cons, take_0. cbn [map fst].
        rewrite Hone. simpl. by rewrite io_dst_echo. }
      destruct (negb (Z.of_nat (length chunk) =? nw)).
      { exists 1%nat. split; [simpl; lia|].
        rewrite firstn_cons, take_0. cbn [map fst].
        rewrite Hone. simpl. by rewrite io_dst_echo. }
      destruct er as [e|].
      { exists 1%nat. split; [simpl; lia|].
        rewrite firstn_cons, take_0. cbn [map fst].
        rewrite Hone. simpl. by rewrite io_dst_echo. }
      destruct (IH (ctx_next ctx) (did_write chunk (echo v chunk (did_read io)))
                   (wrap64 (written + nw))) as (k & Hk & Htraffic).
      exists (S k). split; [simpl; lia|].
      rewrite Htraffic.
      rewrite firstn_cons. cbn [map fst].
      change (chunk :: map fst (take k rest))
        with ([chunk] ++ map fst (take k rest)).
      rewrite nonempty_app, Hone. simpl. by rewrite io_dst_echo, <-app_assoc.
    + assert (chunk = []) as -> by (destruct chunk; [done|simpl in Hzero; lia]).
      destruct er as [e|].
      { exists 0%nat. simpl. split; [lia|by rewrite app_nil_r]. }
      destruct (IH (ctx_next ctx) (did_read io) written) as (k & Hk & Htraffic).
      exists (S k). split; [simpl; lia|]. by rewrite Htraffic.
Qed.

(** X1. On a plain reader and writer, whatever the writer answers and
    whenever the signal fires, the chunks [CopyBufferWithContext] hands to
    [dst] are the non-empty chunks of a first part of the reads, in the
    order read, each once: nothing is reordered, repeated or made up, and
    an empty read causes no write. *)
Theorem copy_hands_on_reads_in_order (v : Variant) (dst : Sink) (src : Source)
    (buf : option nat) (ctx : Ctx) (io : IO) :
  src_writeTo src = None ->
  dst_readFrom dst = None ->
  exists k,
    (k <= length (src_reads src))%nat
    /\ io_dst (CopyBufferWithContext v dst src buf ctx io).2
       = io_dst io ++ nonempty (map fst (take k (src_reads src))).
Proof.
  intros HwriteTo HreadFrom. unfold CopyBufferWithContext.
  rewrite HwriteTo, HreadFrom. apply copyLoop_traffic.
Qed.

Lemma copy_hands_on_reads_in_order_witness :
  exists k,
    (k <= 2)%nat
    /\ io_dst (CopyBufferWithContext DirectGo plainSink (plainSource helloReads)
                                     (Some 4%nat) (DoneAfter 1) io0).2
       = [] ++ nonempty (map fst (take k helloReads)).
Proof.
  apply (copy_hands_on_reads_in_order DirectGo plainSink
           (plainSource helloReads) (Some 4%nat) (DoneAfter 1) io0);
    reflexivity.
Defined.

Lemma checkWrite_bounds (nr : Z) (res : Z * option error) :
  0 <= nr -> 0 <= (checkWrite nr res).1 <= nr.
Proof.
  intros Hnr. destruct res as [nw ew]. unfold checkWrite.
  destruct (Z.ltb_spec nw 0); simpl; [lia|].
  destruct (Z.ltb_spec nr nw); simpl; lia.
Qed.

Lemma volume_app (l1 l2 : list bytes) : volume (l1 ++ l2) = volume l1 + volume l2.
Proof. unfold volume. rewrite concat_app, length_app. lia. Qed.

Lemma volume_cons (c : bytes) (l : list bytes) :
  volume (c :: l) = Z.of_nat (length c) + volume l.
Proof. unfold volume. simpl. rewrite length_app. lia. Qed.

Lemma volume_nonneg (l : list bytes) : 0 <= volume l.
Proof. unfold volume. lia. Qed.

Lemma volume_nonempty (l : list bytes) : volume (nonempty l) = volume l.
Proof.
  induction l as [|[|b c] l IH]; [done|by rewrite nonempty_cons, volume_cons|].
  rewrite nonempty_cons, !volume_cons. by rewrite IH.
Qed.

Lemma volume_take (k : nat) (l : list bytes) : volume (take k l) <= volume l.
Proof.
  rewrite <-(take_drop k l) at 2. rewrite volume_app.
  pose proof (volume_nonneg (drop k l)). lia.
Qed.

(** The count the loop returns lies between the count it started from and
    that count plus the bytes it handed to [dst]. *)
Lemma copyLoop_count v dst size reads :
  forall ctx io written,
    0 <= written ->
    written + volume (map fst reads) < 2 ^ 63 ->
    forall written' err,
      (copyLoop v dst size reads ctx io written).1 = Returned written' err ->
      written <= written'
      <= written + (volume (io_dst (copyLoop v dst size reads ctx io written).2)
                    - volume (io_dst io)).
Proof.
  induction reads as [|[chunk er] rest IH]; intros ctx io written Hw Hlt w' err;
    cbn [copyLoop].
  - destruct (ctx_done ctx); [destruct v|]; simpl; intros [= <- _]; lia.
  - destruct (ctx_done ctx).
    { destruct v; simpl; intros [= <- _]; lia. }
    simpl map in Hlt. rewrite volume_cons in Hlt.
    pose proof (volume_nonneg (map fst rest)) as Hrest.
    destruct (Z.ltb_spec 0 (Z.of_nat (length chunk))) as [Hpos|Hzero].
    + destruct (size <? Z.of_nat (length chunk)); [discriminate|].
      pose proof (checkWrite_bounds (Z.of_nat (length chunk))
                    (dst_write dst (length (io_dst (echo v chunk (did_read io))))
                               chunk)) as Hnw.
      destruct (checkWrite (Z.of_nat (length chunk))
                  (dst_write dst (length (io_dst (echo v chunk (did_read io))))
                             chunk)) as [nw ew].
      simpl in Hnw. specialize (Hnw ltac:(lia)).
      rewrite wrap64_small by lia.
      assert (Hvol : volume (io_dst (did_write chunk (echo v chunk (did_read io))))
                     = volume (io_dst io) + Z.of_nat (length chunk)).
      { simpl. rewrite io_dst_echo. simpl. rewrite volume_app, volume_cons.
        unfold volume at 2. simpl. lia. }
      destruct ew as [e|].
      { simpl fst. simpl snd. intros [= <- _]. rewrite Hvol. lia. }
      destruct (negb (Z.of_nat (length chunk) =? nw)).
      { simpl fst. simpl snd. intros [= <- _]. rewrite Hvol. lia. }
      destruct er as [e|].
      { simpl fst. simpl snd. intros [= <- _]. rewrite Hvol. lia. }
      intros Hret.
      pose proof (IH (ctx_next ctx) _ (written + nw) ltac:(lia) ltac:(lia)
                     w' err Hret) as Hih.
      rewrite Hvol in Hih. lia.
    + destruct er as [e|].
      { simpl. intros [= <- _]. lia. }
      intros Hret.
      pose proof (IH (ctx_next ctx) _ written ltac:(lia) ltac:(lia)
                     w' err Hret) as Hih.
      simpl in Hih. lia.
Qed.

(** X2. On a plain reader and writer, if the reads hand out fewer than 2^63
    bytes, the count [CopyBufferWithContext] returns is never negative and
    never more than the bytes it handed to [dst], which are never more than
    the bytes read, whatever counts the writer reports. *)
Theorem written_within_traffic (v : Variant) (dst : Sink) (src : Source)
    (buf : option nat) (ctx : Ctx) (written : Z) (err : option error) :
  src_writeTo src = None ->
  dst_readFrom dst = None ->
  volume (map fst (src_reads src)) < 2 ^ 63 ->
  (CopyBufferWithContext v dst src buf ctx io0).1 = Returned written err ->
  0 <= written <= volume (io_dst (CopyBufferWithContext v dst src buf ctx io0).2)
  /\ volume (io_dst (CopyBufferWithContext v dst src buf ctx io0).2)
     <= volume (map fst (src_reads src)).
Proof.
  intros HwriteTo HreadFrom Hvol.
  unfold CopyBufferWithContext. rewrite HwriteTo, HreadFrom.
  destruct (copyLoop_traffic v dst (bufLen buf src) (src_reads src) ctx io0 0)
    as (k & _ & Htraffic).
  intros Hret.
  pose proof (copyLoop_count v dst (bufLen buf src) (src_reads src) ctx io0 0
                ltac:(lia) ltac:(lia) written err Hret) as Hcount.
  change (volume (io_dst io0)) with 0 in Hcount.
  split; [lia|].
  rewrite Htraffic. simpl. rewrite volume_nonempty, <-firstn_map.
  apply volume_take.
Qed.

Lemma written_within_traffic_witness :
  0 <= 2 <= volume [take 4 hello]
  /\ volume [take 4 hello] <= volume (map fst helloReads).
Proof.
  apply (written_within_traffic DirectGo shortSink (plainSource helloReads)
           (Some 4%nat) Never 2 (Some ErrShortWrite));
    reflexivity.
Defined.

(** The loop never returns io.EOF when the writer never does. *)
Lemma copyLoop_no_EOF v dst size reads :
  (forall k p, (dst_write dst k p).2 <> Some EOF) ->
  forall ctx io written written',
    (copyLoop v dst size reads ctx io written).1 <> Returned written' (Some EOF).
Proof.
  intros Hdst.
  induction reads as [|[chunk er] rest IH]; intros ctx io written w';
    cbn [copyLoop].
  - destruct (ctx_done ctx); [destruct v|]; simpl; congruence.
  - destruct (ctx_done ctx); [destruct v; simpl; congruence|].
    assert (Hafter : forall io' w,
               (match er with
                | Some e => (Returned w (readError e), io')
                | None => copyLoop v dst size rest (ctx_next ctx) io' w
                end).1 <> Returned w' (Some EOF)).
    { intros io' w. destruct er as [e|]; [|apply IH].
      destruct e; simpl; congruence. }
    destruct (0 <? Z.of_nat (length chunk)); [|apply Hafter].
    destruct (size <? Z.of_nat (length chunk)); [simpl; congruence|].
    pose proof (Hdst (length (io_dst (echo v chunk (did_read io)))) chunk) as Hew.
    destruct (dst_write dst (length (io_dst (echo v chunk (did_read io)))) chunk)
      as [nw ew].
    unfold checkWrite.
    destruct ((nw <? 0) || (Z.of_nat (length chunk) <? nw)).
    + destruct ew as [e|]; simpl in *; congruence.
    + destruct ew as [e|]; [simpl in *; congruence|].
      destruct (negb (Z.of_nat (length chunk) =? nw)); [simpl; congruence|].
      apply Hafter.
Qed.

(** X3. The end of the input is never reported as an error: when the writer
    never answers with io.EOF, [CopyBufferWithContext] on a plain reader and
    writer never returns io.EOF, whatever the reader returns it with (data
    or none) and whenever the signal fires. *)
Theorem eof_is_never_returned (v : Variant) (dst : Sink) (src : Source)
    (buf : option nat) (ctx : Ctx) (io : IO) (written : Z) :
  src_writeTo src = None ->
  dst_readFrom dst = None ->
  (forall k p, (dst_write dst k p).2 <> Some EOF) ->
  (CopyBufferWithContext v dst src buf ctx io).1 <> Returned written (Some EOF).
Proof.
  intros HwriteTo HreadFrom Hdst. unfold CopyBufferWithContext.
  rewrite HwriteTo, HreadFrom. by apply copyLoop_no_EOF.
Qed.

Lemma eof_is_never_returned_witness :
  (CopyBufferWithContext ClientGo brokenSink (plainSource helloReads)
                         (Some 4%nat) Never io0).1
  <> Returned 4 (Some EOF).
Proof.
  apply (eof_is_never_returned ClientGo brokenSink (plainSource helloReads)
           (Some 4%nat) Never io0 4); [reflexivity|reflexivity|].
  intros [|k] p; discriminate.
Defined.

Lemma checkWrite_whole_inv (nr : Z) (res : Z * option error) (nw : Z) :
  checkWrite nr res = (nw, None) -> nr = nw -> res = (nr, None).
Proof.
  destruct res as [nw0 ew]. unfold checkWrite.
  destruct ((nw0 <? 0) || (nr <? nw0)).
  - destruct ew; discriminate.
  - intros [= -> ->] ->. done.
Qed.

(** Every chunk the loop handed to [dst], the last one apart, was taken
    whole and without error. *)
Lemma copyLoop_stops_at_bad_write v dst size reads :
  forall ctx io written j c,
    io_dst (copyLoop v dst size reads ctx io written).2
      !! (length (io_dst io) + j)%nat = Some c ->
    (length (io_dst io) + S j
     < length (io_dst (copyLoop v dst size reads ctx io written).2))%nat ->
    dst_write dst (length (io_dst io) + j) c = (Z.of_nat (length c), None).
Proof.
  induction reads as [|[chunk er] rest IH]; intros ctx io written j c;
    cbn [copyLoop].
  - destruct (ctx_done ctx); simpl; lia.
  - destruct (ctx_done ctx); [simpl; lia|].
    destruct (0 <? Z.of_nat (length chunk)).
    + destruct (size <? Z.of_nat (length chunk)); [simpl; lia|].
      destruct (checkWrite (Z.of_nat (length chunk))
                  (dst_write dst (length (io_dst (echo v chunk (did_read io))))
                             chunk)) as [nw ew] eqn:Hcheck.
      rewrite io_dst_echo in Hcheck. simpl in Hcheck.
      assert (Hlen : length (io_dst (did_write chunk (echo v chunk (did_read io))))
                     = S (length (io_dst io))).
      { simpl. rewrite io_dst_echo. simpl. rewrite length_app. simpl. lia. }
      destruct ew as [e|]; [simpl fst; simpl snd; rewrite Hlen; lia|].
      destruct (Z.eqb_spec (Z.of_nat (length chunk)) nw) as [Hnw|Hnw];
        cbn [negb]; [|simpl fst; simpl snd; rewrite Hlen; lia].
      apply checkWrite_whole_inv in Hcheck; [|done].
      destruct er as [e|]; [simpl fst; simpl snd; rewrite Hlen; lia|].
      destruct (copyLoop_traffic v dst size rest (ctx_next ctx)
                  (did_write chunk (echo v chunk (did_read io)))
                  (wrap64 (written + nw))) as (k & _ & Htraffic).
      destruct j as [|j].
      * rewrite Htraffic. simpl. rewrite io_dst_echo. simpl.
        rewrite Nat.add_0_r, <-app_assoc.
        rewrite lookup_app_r by lia. rewrite Nat.sub_diag. simpl.
        intros [= <-] _. done.
      * intros Hj Hlt.
        replace (length (io_dst io) + S j)%nat
          with (length (io_dst (did_write chunk (echo v chunk (did_read io)))) + j)%nat
          in * by lia.
        apply (IH (ctx_next ctx) _ (wrap64 (written + nw))); [done|lia].
    + destruct er as [e|]; [simpl; lia|].
      intros Hj Hlt. apply (IH (ctx_next ctx) (did_read io) written); done.
Qed.

(** X4. The copy stops at the first write that is not a whole success: of
    the chunks [CopyBufferWithContext] handed to [dst] on a plain reader and
    writer, every one but the last was answered with its full length and no
    error. *)
Theorem copy_stops_at_first_bad_write (v : Variant) (dst : Sink) (src : Source)
    (buf : option nat) (ctx : Ctx) (j : nat) (c : bytes) :
  src_writeTo src = None ->
  dst_readFrom dst = None ->
  io_dst (CopyBufferWithContext v dst src buf ctx io0).2 !! j = Some c ->
  (S j < length (io_dst (CopyBufferWithContext v dst src buf ctx io0).2))%nat ->
  dst_write dst j c = (Z.of_nat (length c), None).
Proof.
  intros HwriteTo HreadFrom. unfold CopyBufferWithContext.
  rewrite HwriteTo, HreadFrom.
  apply (copyLoop_stops_at_bad_write v dst (bufLen buf src) (src_reads src)
           ctx io0 0 j c).
Qed.

Lemma copy_stops_at_first_bad_write_witness :
  dst_write brokenSink 0 (take 4 hello) = (4, None).
Proof.
  apply (copy_stops_at_first_bad_write DirectGo brokenSink
           (plainSource helloReads) (Some 4%nat) Never 0 (take 4 hello));
    [reflexivity|reflexivity|reflexivity|simpl; lia].
Defined.

(** Up to the turn on which it fires the signal changes nothing. *)
Lemma copyLoop_cancel_truncates v dst size reads :
  forall ctx io written,
    io_dst (copyLoop v dst size reads ctx io written).2
      `prefix_of` io_dst (copyLoop v dst size reads Never io written).2
    /\ ((copyLoop v dst size reads ctx io written).1
        = (copyLoop v dst size reads Never io written).1
        \/ exists w, (copyLoop v dst size reads ctx io written).1 = cancelled v w).
Proof.
  induction reads as [|[chunk er] rest IH]; intros ctx io written.
  - cbn [copyLoop]. destruct (ctx_done ctx); simpl; split; eauto.
  - destruct (ctx_done ctx) eqn:Hdone.
    { destruct (copyLoop_traffic v dst size ((chunk, er) :: rest) Never io written)
        as (k & _ & Htraffic).
      rewrite Htraffic. cbn [copyLoop]. rewrite Hdone. simpl.
      split; [by apply prefix_app_r|eauto]. }
    cbn [copyLoop ctx_done ctx_next]. rewrite Hdone.
    assert (Hafter : forall io' w,
               let rc := match er with
                         | Some e => (Returned w (readError e), io')
                         | None => copyLoop v dst size rest (ctx_next ctx) io' w
                         end in
               let rn := match er with
                         | Some e => (Returned w (readError e), io')
                         | None => copyLoop v dst size rest Never io' w
                         end in
               io_dst rc.2 `prefix_of` io_dst rn.2
               /\ (rc.1 = rn.1 \/ exists w0, rc.1 = cancelled v w0)).
    { intros io' w. destruct er as [e|]; simpl; [split; eauto|apply IH]. }
    destruct (0 <? Z.of_nat (length chunk)); [|apply Hafter].
    destruct (size <? Z.of_nat (length chunk)); [split; eauto|].
    destruct (checkWrite (Z.of_nat (length chunk))
                (dst_write dst (length (io_dst (echo v chunk (did_read io))))
                           chunk)) as [nw [e|]]; [split; eauto|].
    destruct (negb (Z.of_nat (length chunk) =? nw)); [split; eauto|].
    apply Hafter.
Qed.

(** X5. Cancelling only cuts the copy short: for every dst, src and buffer,
    what [CopyBufferWithContext] hands to [dst] under a signal that fires is
    a first part of what it hands to [dst] when the signal never fires, and
    its result is either the same or the cancelled outcome. *)
Theorem cancelling_only_truncates (v : Variant) (dst : Sink) (src : Source)
    (buf : option nat) (ctx : Ctx) (io : IO) :
  io_dst (CopyBufferWithContext v dst src buf ctx io).2
    `prefix_of` io_dst (CopyBufferWithContext v dst src buf Never io).2
  /\ ((CopyBufferWithContext v dst src buf ctx io).1
      = (CopyBufferWithContext v dst src buf Never io).1
      \/ exists w, (CopyBufferWithContext v dst src buf ctx io).1 = cancelled v w).
Proof.
  unfold CopyBufferWithContext.
  destruct (src_writeTo src); [split; eauto|].
  destruct (dst_readFrom dst); [split; eauto|].
  apply copyLoop_cancel_truncates.
Qed.

End CopierTrafficFacts.

(** *** Director: the binding calls and the accept loops *)

Section BindingFacts.
Import ForwardBinding Binding.

(** X7. [BindConnToWithBuffer] (and [BindTcpConnToWithBuffer], [BindConnTo],
    [BindTcpConnTo]) returns exactly the error of the dial: with a failed
    dial nothing is bound and no stream is closed by the call, and with a
    successful dial the call returns nil whatever the copies ended with,
    and only once both copy goroutines have exited and both streams are
    closed. *)
Theorem bind_call_returns_dial_error {E : Type} (dial : option E)
    (sched : list Thread) (err : option E) (binding : option State) :
  BindConnToWithBuffer dial sched = Some (Finished err binding) ->
  err = dial
  /\ (dial <> None -> binding = None)
  /\ (dial = None ->
      exists s,
        binding = Some s
        /\ bindConnsWithBuffer sched init = Some s
        /\ terminated (toRemote s) = true /\ terminated (toLocal s) = true
        /\ both_closed s).
Proof.
  unfold BindConnToWithBuffer. destruct dial as [e|].
  - intros [= <- <-]. split; [done|split; [done|discriminate]].
  - destruct (bindConnsWithBuffer sched init) as [s|] eqn:Hrun; [|discriminate].
    simpl. pose proof (bind_inv_run sched init s bind_inv_init Hrun)
      as (Hm & Ha & Hb).
    destruct (main s) eqn:Hmain; try discriminate.
    intros [= <- <-]. split; [done|split; [done|]]. intros _.
    exists s. destruct Hm as (_ & Hra & Hrb). rewrite Hra, Hrb in *.
    split; [done|]. split; [done|]. split; [done|]. split; [done|]. apply Ha.
Qed.

Lemma bind_call_returns_dial_error_witness :
  (None : option string) = None
  /\ ((None : option string) <> None ->
      Some (mkState HasReturned Exited Exited 0 2 2) = None)
  /\ ((None : option string) = None ->
      exists s,
        Some (mkState HasReturned Exited Exited 0 2 2) = Some s
        /\ bindConnsWithBuffer remote_side_ends_first init = Some s
        /\ terminated (toRemote s) = true /\ terminated (toLocal s) = true
        /\ both_closed s).
Proof.
  apply (bind_call_returns_dial_error (None : option string)
           remote_side_ends_first None
           (Some (mkState HasReturned Exited Exited 0 2 2))).
  reflexivity.
Defined.

(** X8. The goroutine [DirectTcpToWithBuffer] starts for an accepted
    connection closes it only on one of its four exits: it ends without
    having bound (and so without any Close) exactly when the context was
    done, the address did not resolve, or the dial failed; when it has bound,
    it ends with both streams closed. *)
Theorem direct_tcp_handler_exits {E : Type} (ctx_done : bool)
    (resolve dial : option E) (sched : list Thread)
    (err : option E) (binding : option State) :
  directTcpHandler ctx_done resolve dial sched = Some (Finished err binding) ->
  (binding = None <-> ctx_done = true \/ resolve <> None \/ dial <> None)
  /\ (forall s, binding = Some s ->
                terminated (toRemote s) = true /\ terminated (toLocal s) = true
                /\ both_closed s).
Proof.
  unfold directTcpHandler, BindTcpConnToWithBuffer, BindConnToWithBuffer.
  destruct ctx_done.
  { intros [= <- <-]. split; [split; auto|discriminate]. }
  destruct resolve as [e|].
  { intros [= <- <-]. split; [split; [right; left|]; done|discriminate]. }
  destruct dial as [e|]; simpl.
  { intros [= <- <-]. split; [split; [right; right|]; done|discriminate]. }
  destruct (bindConnsWithBuffer sched init) as [s|] eqn:Hrun; [|discriminate].
  simpl. pose proof (bind_inv_run sched init s bind_inv_init Hrun)
    as (Hm & Ha & Hb).
  destruct (main s) eqn:Hmain; try discriminate.
  intros [= <- <-]. split.
  - split; [discriminate|]. intros [?|[?|?]]; done.
  - intros s' [= <-]. destruct Hm as (_ & Hra & Hrb). rewrite Hra, Hrb in *.
    split; [done|]. split; [done|]. apply Ha.
Qed.

Lemma direct_tcp_handler_exits_witness :
  ((None : option State) = None
   <-> false = true \/ (None : option string) <> None \/ Some "refused" <> None)
  /\ (forall s, (None : option State) = Some s ->
                terminated (toRemote s) = true /\ terminated (toLocal s) = true
                /\ both_closed s).
Proof.
  apply (direct_tcp_handler_exits false None (Some "refused") [] None None).
  reflexivity.
Defined.

End BindingFacts.

Section AcceptingFacts.
Import Director Accepting.

Lemma served_step a s s' :
  is_refusal a = false ->
  all_served s /\ local_closed_first s ->
  step a s = Some s' ->
  all_served s' /\ local_closed_first s'.
Proof.
  destruct s as [acc fr cl g]. unfold all_served, local_closed_first, held.
  simpl. intros Ha [Hserved Hfirst] Hstep.
  destruct a as [| | |i|i|i]; simpl in Hstep; try discriminate.
  - destruct acc; inversion Hstep; subst; simpl; auto.
  - destruct acc; inversion Hstep; subst; simpl; auto.
  - destruct acc; inversion Hstep; subst; simpl. split.
    + intros c Hc. destruct (decide (c = fr)) as [->|Hne].
      * right. exists (length g), (Handler fr).
        split; [by rewrite list_lookup_middle|done].
      * destruct (Hserved c) as [?|(j & x & Hj & Hx)]; [lia|by left|].
        right. exists j, x. split; [|done].
        rewrite lookup_app_l; [done|]. by eapply lookup_lt_Some.
    + intros j d l r Hj. apply lookup_app_Some in Hj as [Hj|[_ Hj]].
      * eauto.
      * destruct (j - length g)%nat as [|[|]]; simpl in Hj; discriminate.
  - destruct (g !! i) as [[l|d st l r|]|] eqn:Hi; inversion Hstep; subst; simpl.
    pose proof (lookup_lt_Some _ _ _ Hi) as Hlt. split.
    + intros c Hc. destruct (decide (c = fr)) as [->|Hne].
      * right. exists (length (<[i:=Gone]> g)), (Copier LocalToRemote Copying l fr).
        split; [by rewrite list_lookup_middle|simpl; auto].
      * destruct (Hserved c) as [?|(j & x & Hj & Hx)]; [lia|by left|].
        right. destruct (decide (j = i)) as [->|Hji].
        -- rewrite Hi in Hj. injection Hj as <-. simpl in Hx. subst c.
           exists (length (<[i:=Gone]> g)), (Copier LocalToRemote Copying l fr).
           split; [by rewrite list_lookup_middle|simpl; auto].
        -- exists j, x. split; [|done].
           rewrite lookup_app_l by (rewrite length_insert; by eapply lookup_lt_Some).
           by rewrite list_lookup_insert_ne.
    + intros j d l' r Hj. apply lookup_app_Some in Hj as [Hj|[_ Hj]].
      * destruct (decide (j = i)) as [->|Hji].
        -- rewrite list_lookup_insert_eq in Hj by done. discriminate.
        -- rewrite list_lookup_insert_ne in Hj by done. eauto.
      * destruct (j - length (<[i:=Gone]> g))%nat as [|[|[|]]];
          simpl in Hj; discriminate.
  - destruct (g !! i) as [[l|d st l r|]|] eqn:Hi; try discriminate.
    pose proof (lookup_lt_Some _ _ _ Hi) as Hlt.
    destruct st; inversion Hstep; subst; simpl; split.
    + intros c Hc. destruct (Hserved c Hc) as [?|(j & x & Hj & Hx)]; [by left|].
      right. destruct (decide (j = i)) as [->|Hji].
      * rewrite Hi in Hj. injection Hj as <-.
        exists i, (Copier d ClosingLocal l r).
        split; [by rewrite list_lookup_insert_eq|done].
      * exists j, x. by rewrite list_lookup_insert_ne.
    + intros j d' l' r' Hj. destruct (decide (j = i)) as [->|Hji].
      * rewrite list_lookup_insert_eq in Hj by done. discriminate.
      * rewrite list_lookup_insert_ne in Hj by done. eauto.
    + intros c Hc. destruct (Hserved c Hc) as [?|(j & x & Hj & Hx)];
        [left; set_solver|].
      right. destruct (decide (j = i)) as [->|Hji].
      * rewrite Hi in Hj. injection Hj as <-.
        exists i, (Copier d ClosingRemote l r).
        split; [by rewrite list_lookup_insert_eq|done].
      * exists j, x. by rewrite list_lookup_insert_ne.
    + intros j d' l' r' Hj. destruct (decide (j = i)) as [->|Hji].
      * rewrite list_lookup_insert_eq in Hj by done. injection Hj as <- <- <-.
        set_solver.
      * rewrite list_lookup_insert_ne in Hj by done.
        apply elem_of_union_r. eauto.
    + intros c Hc. destruct (Hserved c Hc) as [?|(j & x & Hj & Hx)];
        [left; set_solver|].
      destruct (decide (j = i)) as [->|Hji].
      * rewrite Hi in Hj. injection Hj as <-. simpl in Hx. left.
        destruct Hx as [<-|<-]; [|set_solver].
        apply elem_of_union_r. eauto.
      * right. exists j, x. by rewrite list_lookup_insert_ne.
    + intros j d' l' r' Hj. destruct (decide (j = i)) as [->|Hji].
      * rewrite list_lookup_insert_eq in Hj by done. discriminate.
      * rewrite list_lookup_insert_ne in Hj by done.
        apply elem_of_union_r. eauto.
Qed.

Lemma served_run sched :
  forall s s',
    Forall (fun a => is_refusal a = false) sched ->
    all_served s /\ local_closed_first s ->
    RedirectToWithBuffer sched s = Some s' ->
    all_served s' /\ local_closed_first s'.
Proof.
  induction sched as [|a sched IH]; intros s s' Hok Hinv Hrun; simpl in Hrun.
  - by inversion Hrun; subst.
  - inversion Hok; subst.
    destruct (step a s) as [s1|] eqn:Hstep; [|discriminate].
    simpl in Hrun. eauto using served_step.
Qed.

(** X9. The refused dial is the only way [RedirectToWithBuffer] loses a
    connection: in every state reached by a schedule in which no dial is
    refused, every connection opened so far, accepted or dialled, is closed
    or still held by a goroutine that will close it. *)
Theorem no_refusal_no_leak (sched : list Action) (s : State) (c : conn) :
  Forall (fun a => is_refusal a = false) sched ->
  RedirectToWithBuffer sched init = Some s ->
  (c < fresh s)%nat ->
  c ∈ closed s \/ held c s.
Proof.
  intros Hok Hrun.
  destruct (served_run sched init s Hok) as [Hserved _]; [|done|by apply Hserved].
  split.
  - intros c' Hc'. simpl in Hc'. lia.
  - intros j d l r Hj. simpl in Hj. discriminate.
Qed.

Lemma no_refusal_no_leak_witness :
  1%nat ∈ closed first_conn_closed \/ held 1%nat first_conn_closed.
Proof.
  apply (no_refusal_no_leak two_conns_served first_conn_closed 1%nat).
  - repeat constructor.
  - reflexivity.
  - simpl. lia.
Defined.

Lemma direct_tcp_loop cb turns :
  forall spawned,
    Forall (fun c => transform cb c <> None) (accepted_run turns) ->
    DirectTcpToWithBuffer cb turns spawned
    = mkLoop (meets_end turns)
             (spawned ++ omap (transform cb) (accepted_run turns))
             (after_end turns).
Proof.
  induction turns as [|[| |c] turns IH]; intros spawned Hok; simpl.
  - by rewrite app_nil_r.
  - by rewrite app_nil_r.
  - by rewrite app_nil_r.
  - simpl in Hok. inversion Hok as [|? ? Hc Hrest]; subst.
    destruct cb as [newConn|]; simpl in *.
    + destruct (newConn c) as [t|]; [|done].
      rewrite IH by done. by rewrite <-app_assoc.
    + rewrite IH by done. by rewrite <-app_assoc.
Qed.

(** X10. As long as the hook fails on none of them, [DirectTcpToWithBuffer]
    starts one goroutine for every connection accepted before the first
    cancelled context or failed Accept, in the order accepted and on the
    connection the hook made of it; it returns on that turn and leaves the
    turns after it untouched. *)
Theorem direct_tcp_serves_accepted_in_order (cb : option NewConnCallback)
    (turns : list Turn) :
  Forall (fun c => transform cb c <> None) (accepted_run turns) ->
  DirectTcpToWithBuffer cb turns []
  = mkLoop (meets_end turns) (omap (transform cb) (accepted_run turns))
           (after_end turns).
Proof. intros Hok. by rewrite direct_tcp_loop. Qed.

Lemma direct_tcp_serves_accepted_in_order_witness :
  DirectTcpToWithBuffer (Some port_shift)
    [Accepted 1%nat; Accepted 2%nat; AcceptError; Accepted 3%nat] []
  = mkLoop true [101%nat; 102%nat] [Accepted 3%nat].
Proof.
  apply (direct_tcp_serves_accepted_in_order (Some port_shift)
           [Accepted 1%nat; Accepted 2%nat; AcceptError; Accepted 3%nat]).
  repeat constructor; discriminate.
Defined.

End AcceptingFacts.

(** *** InteractiveSession: keepalive, window size, environment *)

Section KeepAliveCountFacts.
Import KeepAlive KeepAliveCount.

Lemma failed_nonneg turns : 0 <= failed turns.
Proof. induction turns as [|[|[|]] turns IH]; simpl; lia. Qed.

Lemma countingLoop_app pre :
  forall budget rest sent,
    Forall is_tick pre ->
    failed pre <= budget ->
    countingLoop budget (pre ++ rest) sent
    = countingLoop (budget - failed pre) rest (length pre + sent).
Proof.
  induction pre as [|t pre IH]; intros budget rest sent Hticks Hle.
  - simpl. f_equal. lia.
  - inversion Hticks as [|? ? Ht Hpre]; subst.
    pose proof (failed_nonneg pre).
    destruct t as [|[|]]; [done| |]; simpl in *.
    + destruct (Z.leb_spec budget 0); [lia|].
      rewrite IH by (done || lia). f_equal; lia.
    + rewrite IH by (done || lia). f_equal; lia.
Qed.

(** X11. The failure budget of [KeepAlive] is cumulative: successful sends
    in between do not restore it. With [maxErrRetries = n > 0], as long as
    no more than [n] sends have failed in all, a request goes out on every
    tick and the goroutine keeps waiting; the failed send after [n] failed
    ones, however many successful ones lie between them, ends it. *)
Theorem keepalive_budget_is_cumulative (interval : Z) (n : nat)
    (pre rest : list Turn) :
  0 < interval ->
  (0 < n)%nat ->
  Forall is_tick pre ->
  (failed pre <= Z.of_nat n ->
   KeepAlive interval (Z.of_nat n) pre = mkReport (length pre) Waiting)
  /\ (failed pre = Z.of_nat n ->
      KeepAlive interval (Z.of_nat n) (pre ++ Tick true :: rest)
      = mkReport (S (length pre)) GaveUp).
Proof.
  intros Hint Hn Hticks. unfold KeepAlive.
  destruct (Z.leb_spec interval 0); [lia|].
  destruct (Z.leb_spec (Z.of_nat n) 0); [lia|].
  split; intros Hfailed.
  - rewrite <-(app_nil_r pre) at 1. rewrite countingLoop_app by done.
    simpl. f_equal. lia.
  - rewrite countingLoop_app by (done || lia).
    rewrite Hfailed, Z.sub_diag. simpl. f_equal. lia.
Qed.

Lemma keepalive_budget_is_cumulative_witness :
  KeepAlive 60 2 (flaky ++ Tick true :: [Tick false]) = mkReport 5 GaveUp.
Proof.
  apply (keepalive_budget_is_cumulative 60 2 flaky [Tick false]).
  - lia.
  - lia.
  - repeat constructor.
  - reflexivity.
Defined.

Lemma foreverLoop_cancel pre :
  forall post sent,
    Forall is_tick pre ->
    foreverLoop (pre ++ CtxDone :: post) sent
    = mkReport (length pre + sent) Cancelled.
Proof.
  induction pre as [|t pre IH]; intros post sent Hticks; [done|].
  inversion Hticks as [|? ? Ht Hpre]; subst.
  destruct t as [|b]; [done|]. simpl. rewrite IH by done. f_equal. lia.
Qed.

Lemma countingLoop_cancel pre :
  forall budget post sent,
    Forall is_tick pre ->
    countingLoop budget (pre ++ CtxDone :: post) sent
    = countingLoop budget (pre ++ [CtxDone]) sent
    /\ (sends (countingLoop budget (pre ++ CtxDone :: post) sent)
        <= length pre + sent)%nat
    /\ status (countingLoop budget (pre ++ CtxDone :: post) sent) <> Waiting.
Proof.
  induction pre as [|t pre IH]; intros budget post sent Hticks.
  - simpl. split; [done|split; [lia|done]].
  - inversion Hticks as [|? ? Ht Hpre]; subst.
    destruct t as [|[|]]; [done| |]; simpl.
    + destruct (budget <=? 0); [simpl; split; [done|split; [lia|done]]|].
      destruct (IH (budget - 1) post (S sent) Hpre) as (Heq & Hle & Hst).
      split; [done|split; [lia|done]].
    + destruct (IH budget post (S sent) Hpre) as (Heq & Hle & Hst).
      split; [done|split; [lia|done]].
Qed.

(** X12. Once the handle [KeepAlive] returned has been called, nothing more
    is sent: if the goroutine finds the context cancelled after the ticks
    [pre], it has sent at most one request per tick of [pre], it is not
    waiting any more, and what would have come after makes no
    difference. *)
Theorem keepalive_stops_on_cancel (interval maxErrRetries : Z)
    (pre post : list Turn) :
  Forall is_tick pre ->
  KeepAlive interval maxErrRetries (pre ++ CtxDone :: post)
  = KeepAlive interval maxErrRetries (pre ++ [CtxDone])
  /\ (sends (KeepAlive interval maxErrRetries (pre ++ CtxDone :: post))
      <= length pre)%nat
  /\ status (KeepAlive interval maxErrRetries (pre ++ CtxDone :: post))
     <> Waiting.
Proof.
  intros Hticks. unfold KeepAlive.
  destruct (interval <=? 0); [simpl; split; [done|split; [lia|done]]|].
  destruct (maxErrRetries <=? 0).
  - rewrite !foreverLoop_cancel by done. simpl.
    split; [done|split; [lia|done]].
  - destruct (countingLoop_cancel pre maxErrRetries post 0 Hticks)
      as (Heq & Hle & Hst).
    split; [done|split; [lia|done]].
Qed.

Lemma keepalive_stops_on_cancel_witness :
  KeepAlive 60 0 (flaky ++ CtxDone :: flaky) = KeepAlive 60 0 (flaky ++ [CtxDone])
  /\ (sends (KeepAlive 60 0 (flaky ++ CtxDone :: flaky)) <= length flaky)%nat
  /\ status (KeepAlive 60 0 (flaky ++ CtxDone :: flaky)) <> Waiting.
Proof.
  apply (keepalive_stops_on_cancel 60 0 flaky flaky).
  repeat constructor.
Defined.

End KeepAliveCountFacts.

Section TerminalFacts.
Import Terminal.

Lemma latest_snoc (prev r : Request) (sent : list Request) :
  latest prev (sent ++ [r]) = r.
Proof. revert prev. induction sent as [|x sent IH]; intros prev; simpl; auto. Qed.

Lemma changes_only_snoc (prev r : Request) (sent : list Request) :
  changes_only prev sent -> r <> latest prev sent ->
  changes_only prev (sent ++ [r]).
Proof.
  revert prev. induction sent as [|x sent IH]; intros prev; simpl.
  - auto.
  - intros [Hx Hrest] Hr. split; [done|]. by apply IH.
Qed.

Lemma watch_sends_changes events :
  forall termWidth termHeight sent prev,
    all_accepted events ->
    changes_only prev sent ->
    latest prev sent = (termHeight, termWidth) ->
    changes_only prev (watch events termWidth termHeight sent).2
    /\ latest prev (watch events termWidth termHeight sent).2
       = ((watch events termWidth termHeight sent).1.2,
          (watch events termWidth termHeight sent).1.1).
Proof.
  induction events as [|[measured accepted|] events IH];
    intros w h sent prev Hacc Hsent Hlast; [done| |done].
  inversion Hacc as [|? ? Ha Hrest]; simpl in Ha; subst.
  cbn [watch]. unfold SendWinChange.
  destruct measured as [[nw nh]|].
  - destruct (Z.eqb_spec nh h) as [->|Hh]; simpl.
    + destruct (Z.eqb_spec nw w) as [->|Hw]; simpl.
      * rewrite app_nil_r. by apply IH.
      * apply IH; [done| |by rewrite latest_snoc].
        apply changes_only_snoc; [done|]. rewrite Hlast. congruence.
    + apply IH; [done| |by rewrite latest_snoc].
      apply changes_only_snoc; [done|]. rewrite Hlast. congruence.
  - rewrite app_nil_r. by apply IH.
Qed.

(** X13. [AutoUpdateTerminalSize] never repeats itself: when the server
    accepts the window-change requests, every request it sends carries a
    size different from the one sent before it (the first a size other than
    0x0), however often the signal arrives and also when measuring fails in
    between; and the size it keeps is the size it sent last. *)
Theorem window_changes_are_changes (measured : option Size) (accepted : bool)
    (events : list Event) :
  accepted = true ->
  all_accepted events ->
  changes_only (0, 0) (AutoUpdateTerminalSize measured accepted events).2.2
  /\ latest (0, 0) (AutoUpdateTerminalSize measured accepted events).2.2
     = ((AutoUpdateTerminalSize measured accepted events).2.1.2,
        (AutoUpdateTerminalSize measured accepted events).2.1.1).
Proof.
  intros -> Hacc. unfold AutoUpdateTerminalSize, SendWinChange.
  destruct measured as [[nw nh]|]; [|done].
  destruct (Z.eqb_spec nh 0) as [->|Hh]; simpl.
  - destruct (Z.eqb_spec nw 0) as [->|Hw]; simpl.
    + by apply watch_sends_changes.
    + apply watch_sends_changes; [done|simpl; split; [congruence|done]|done].
  - apply watch_sends_changes; [done|simpl; split; [congruence|done]|done].
Qed.

Lemma window_changes_are_changes_witness :
  changes_only (0, 0) [(24, 80); (30, 100)]
  /\ latest (0, 0) [(24, 80); (30, 100)] = (30, 100).
Proof.
  apply (window_changes_are_changes (Some (80, 24)) true resizing).
  - reflexivity.
  - repeat constructor.
Defined.

End TerminalFacts.

Section EnvFacts.
Import Env.

Context {E : Type} (Setenv : string -> string -> option E).

Lemma rangeEnvs_sent envs :
  forall err sent, (rangeEnvs E Setenv envs err sent).2 = sent ++ envs.
Proof.
  induction envs as [|[k v] envs IH]; intros err sent; simpl.
  - by rewrite app_nil_r.
  - by rewrite IH, <-app_assoc.
Qed.

Lemma rangeEnvs_err envs :
  forall err sent,
    (rangeEnvs E Setenv envs err sent).1
    = match last (omap (fun kv => Setenv kv.1 kv.2) envs) with
      | Some e => Some e
      | None => err
      end.
Proof.
  induction envs as [|[k v] envs IH]; intros err sent; [done|].
  cbn [rangeEnvs omap list_omap fst snd]. rewrite IH.
  destruct (Setenv k v) as [e|]; [|done].
  rewrite last_cons. by destruct (last _).
Qed.

(** X14. [SetEnvs] sends a request for every variable, in the order the map
    is walked, whether earlier ones failed or not, and returns the error of
    the last request that failed: nil exactly when none failed. *)
Theorem setenvs_returns_last_failure (envs : list (string * string)) :
  SetEnvs E Setenv (Some envs)
  = (last (omap (fun kv => Setenv kv.1 kv.2) envs), envs).
Proof.
  unfold SetEnvs.
  rewrite (surjective_pairing (rangeEnvs E Setenv envs None [])).
  rewrite rangeEnvs_sent, rangeEnvs_err. by destruct (last _).
Qed.

End EnvFacts.

(** *** Authentication: loading private keys *)

Section AuthFacts.
Import Auth.

Context {Key Signer E : Type}.
Context (ParsePrivateKey : Key -> E + Signer) (ReadFile : string -> E + Key).

Lemma parseKeys_result keys :
  forall signers,
    match parseKeys Key Signer E ParsePrivateKey keys signers with
    | inr out =>
        exists new,
          out = signers ++ new
          /\ Forall2 (fun key signer => ParsePrivateKey key = inr signer) keys new
    | inl err =>
        exists pre key post got,
          keys = pre ++ key :: post
          /\ Forall2 (fun key signer => ParsePrivateKey key = inr signer) pre got
          /\ ParsePrivateKey key = inl err
    end.
Proof.
  induction keys as [|key keys IH]; intros signers; simpl.
  - exists []. by rewrite app_nil_r.
  - destruct (ParsePrivateKey key) as [err|signer] eqn:Hkey.
    + exists [], key, keys, []. split; [done|split; [constructor|done]].
    + specialize (IH (signers ++ [signer])).
      destruct (parseKeys _ _ _ _ keys (signers ++ [signer])) as [err|out].
      * destruct IH as (pre & k & post & got & -> & Hpre & Hk).
        exists (key :: pre), k, post, (signer :: got).
        split; [done|split; [by constructor|done]].
      * destruct IH as (new & -> & Hnew).
        exists (signer :: new). rewrite <-app_assoc.
        split; [done|by constructor].
Qed.

(** X15. [AuthByPrivateKeys] succeeds exactly when every key parses, and
    then holds one signer per key, in the order of the keys; otherwise it
    returns the error of the first key that does not parse, the keys before
    it having parsed. *)
Theorem auth_by_keys_all_or_first_error (keys : list Key) :
  match AuthByPrivateKeys Key Signer E ParsePrivateKey keys with
  | inr signers =>
      Forall2 (fun key signer => ParsePrivateKey key = inr signer) keys signers
  | inl err =>
      exists pre key post got,
        keys = pre ++ key :: post
        /\ Forall2 (fun key signer => ParsePrivateKey key = inr signer) pre got
        /\ ParsePrivateKey key = inl err
  end.
Proof.
  unfold AuthByPrivateKeys.
  pose proof (parseKeys_result keys []) as Hres.
  destruct (parseKeys _ _ _ _ keys []) as [err|out]; [done|].
  by destruct Hres as (new & -> & Hnew).
Qed.

Lemma loadKeys_result files :
  forall signers read,
    match loadKeys Key Signer E ParsePrivateKey ReadFile files signers read with
    | (inr out, read') =>
        read' = read ++ files
        /\ exists new,
            out = signers ++ new
            /\ Forall2 (loads Key Signer E ParsePrivateKey ReadFile) files new
    | (inl err, read') =>
        exists pre file post got,
          files = pre ++ file :: post
          /\ read' = read ++ pre ++ [file]
          /\ Forall2 (loads Key Signer E ParsePrivateKey ReadFile) pre got
          /\ fails Key Signer E ParsePrivateKey ReadFile file err
    end.
Proof.
  induction files as [|file files IH]; intros signers read; simpl.
  - rewrite app_nil_r. split; [done|]. exists []. by rewrite app_nil_r.
  - destruct (ReadFile file) as [err|key] eqn:Hread.
    { exists [], file, files, [].
      split; [done|split; [done|split; [constructor|by left]]]. }
    destruct (ParsePrivateKey key) as [err|signer] eqn:Hkey.
    { exists [], file, files, [].
      split; [done|split; [done|split; [constructor|right; eauto]]]. }
    specialize (IH (signers ++ [signer]) (read ++ [file])).
    destruct (loadKeys _ _ _ _ _ files (signers ++ [signer]) (read ++ [file]))
      as [[err|out] read'].
    + destruct IH as (pre & f & post & got & -> & -> & Hpre & Hf).
      exists (file :: pre), f, post, (signer :: got).
      split; [done|]. split; [by rewrite <-!app_assoc|].
      split; [|done]. constructor; [|done]. by exists key.
    + destruct IH as (-> & new & -> & Hnew).
      split; [by rewrite <-app_assoc|].
      exists (signer :: new). rewrite <-app_assoc.
      split; [done|]. constructor; [|done]. by exists key.
Qed.

(** X16. [AuthByPrivateKeysFromPaths] succeeds exactly when every file can
    be read and parsed, having read all of them and holding one signer per
    file in order; otherwise it returns the error of the first file that
    cannot be read or parsed, and no file after that one is read. *)
Theorem auth_by_paths_stops_at_first_error (files : list string) :
  match AuthByPrivateKeysFromPaths Key Signer E ParsePrivateKey ReadFile files with
  | (inr signers, read) =>
      read = files
      /\ Forall2 (loads Key Signer E ParsePrivateKey ReadFile) files signers
  | (inl err, read) =>
      exists pre file post got,
        files = pre ++ file :: post
        /\ read = pre ++ [file]
        /\ Forall2 (loads Key Signer E ParsePrivateKey ReadFile) pre got
        /\ fails Key Signer E ParsePrivateKey ReadFile file err
  end.
Proof.
  unfold AuthByPrivateKeysFromPaths.
  pose proof (loadKeys_result files [] []) as Hres.
  destruct (loadKeys _ _ _ _ _ files [] []) as [[err|out] read]; [done|].
  by destruct Hres as (-> & new & -> & Hnew).
Qed.

End AuthFacts.

(** *** HostTrustDecider: modes, answers and the store *)

Section HostTrustMoreFacts.
Import HostTrust.

Context {PublicKey : Type} (Line : list string -> PublicKey -> string).

(** X17. Without the interactive mode [KnownHostsCheck] touches nothing: it
    prints nothing, reads no answer and appends nothing; and it accepts
    exactly when a known_hosts file is given, the files load, and the host
    is on record with the presented key. *)
Theorem non_interactive_is_silent (kw : KnownHostsChecker)
    (new_err : option error) (found : Lookup) (hostname remote : string)
    (key : PublicKey) (w : World) :
  Interactively kw = false ->
  (KnownHostsCheck PublicKey Line kw new_err found hostname remote key w).2 = w
  /\ ((KnownHostsCheck PublicKey Line kw new_err found hostname remote key w).1
      = None
      <-> files kw <> [] /\ new_err = None /\ found = Found).
Proof.
  intros Hmode. unfold KnownHostsCheck. rewrite Hmode.
  destruct (files kw) as [|file0 more]; [|destruct new_err as [[]|];
                                          [..|destruct found]];
    simpl;
    (split; [done|]);
    (split; [intros H; first [discriminate H | by repeat split]
            |intros (H1 & H2 & H3); first [done | discriminate]]).
Qed.

(** X18. A host whose key is not the one on record is never accepted, in
    either mode and whatever is answered: for an unknown host, a host known
    with other keys, or a revoked key, [KnownHostsCheck] returns an error,
    reads no answer and appends nothing to the store. *)
Theorem bad_key_is_never_accepted (kw : KnownHostsChecker)
    (new_err : option error) (found : Lookup) (hostname remote : string)
    (key : PublicKey) (w : World) :
  found <> Found ->
  (KnownHostsCheck PublicKey Line kw new_err found hostname remote key w).1
  <> None
  /\ stdin (KnownHostsCheck PublicKey Line kw new_err found hostname remote
                            key w).2 = stdin w
  /\ appended (KnownHostsCheck PublicKey Line kw new_err found hostname remote
                               key w).2 = appended w.
Proof.
  intros Hfound. unfold KnownHostsCheck.
  destruct (files kw) as [|file0 more]; [done|].
  destruct new_err as [[]|]; try done.
  - by destruct (Interactively kw).
  - by destruct found.
Qed.

(** X19. One call of [KnownHostsCheck] appends at most one line to the
    store, and if it appends one, the line is the one knownhosts.Line makes
    of the remote address and the presented key, followed by a newline, the
    mode is interactive and the call accepts the host. *)
Theorem at_most_one_line_appended (kw : KnownHostsChecker)
    (new_err : option error) (found : Lookup) (hostname remote : string)
    (key : PublicKey) (w : World) :
  appended (KnownHostsCheck PublicKey Line kw new_err found hostname remote
                            key w).2 = appended w
  \/ (appended (KnownHostsCheck PublicKey Line kw new_err found hostname remote
                                key w).2
      = appended w ++ [Line [remote] key +:+ newline]
      /\ (KnownHostsCheck PublicKey Line kw new_err found hostname remote
                          key w).1 = None
      /\ Interactively kw = true).
Proof.
  unfold KnownHostsCheck.
  destruct (files kw) as [|file0 more]; [by left|].
  destruct new_err as [[]|]; try by left.
  { left. by destruct (Interactively kw). }
  destruct found; try by left. simpl.
  destruct (Interactively kw); [|by left]. simpl.
  unfold Scan, print. simpl.
  destruct (stdin w) as [|a1 [|a2 rest]]; simpl; try by left.
  - destruct (String.eqb (ToLower a1) "yes"); by left.
  - destruct (String.eqb (ToLower a1) "yes"); [|by left]. simpl.
    destruct (String.eqb (ToLower a2) "no"); [by left|].
    destruct (String.eqb a2 "yes"); [|by left].
    unfold WriteString. simpl.
    destruct (openable w && writable w); simpl; [by right|by left].
Qed.

(** X20. The two questions, asked of a host on record in interactive mode
    with a writable store: unless the first answer is yes in any case, the
    host is refused with "unknown host" after one answer; if it is, the host
    is accepted whatever the second answer, and a line is appended exactly
    when the second answer is the lower-case word yes (not YES, not Yes). *)
Theorem two_questions_table (kw : KnownHostsChecker) (file0 : string)
    (more : list string) (hostname remote : string) (key : PublicKey)
    (w : World) (a1 a2 : string) (rest : list string) :
  files kw = file0 :: more ->
  Interactively kw = true ->
  stdin w = a1 :: a2 :: rest ->
  openable w = true ->
  writable w = true ->
  let r := KnownHostsCheck PublicKey Line kw None Found hostname remote key w in
  (ToLower a1 <> "yes" ->
   r.1 = Some ErrUnknownHost /\ stdin r.2 = a2 :: rest
   /\ appended r.2 = appended w)
  /\ (ToLower a1 = "yes" ->
      r.1 = None /\ stdin r.2 = rest
      /\ appended r.2
         = if String.eqb a2 "yes"
           then appended w ++ [Line [remote] key +:+ newline]
           else appended w).
Proof.
  intros Hfiles Hmode Hin Hopen Hwrite. unfold KnownHostsCheck.
  rewrite Hfiles, Hmode. simpl. unfold Scan, print. simpl. rewrite Hin. simpl.
  destruct (String.eqb_spec (ToLower a1) "yes") as [Hyes|Hno]; simpl.
  - split; [done|]. intros _.
    destruct (String.eqb_spec a2 "yes") as [->|Ha2].
    + simpl. unfold WriteString. simpl. by rewrite Hopen, Hwrite.
    + destruct (String.eqb (ToLower a2) "no"); done.
  - split; [done|]. intros Hyes. done.
Qed.

End HostTrustMoreFacts.

Section HostTrustMoreWitnesses.
Import HostTrust.

Lemma non_interactive_is_silent_witness :
  (KnownHostsCheck TextKey textLine (mkChecker ["known_hosts"] false) None
                   Found "example.org" "192.0.2.7:22" example_key
                   (terminal ["yes"; "yes"])).2
  = terminal ["yes"; "yes"]
  /\ ((KnownHostsCheck TextKey textLine (mkChecker ["known_hosts"] false) None
                       Found "example.org" "192.0.2.7:22" example_key
                       (terminal ["yes"; "yes"])).1
      = None
      <-> ["known_hosts"] <> [] /\ (None : option error) = None /\ Found = Found).
Proof.
  apply (non_interactive_is_silent textLine (mkChecker ["known_hosts"] false)).
  reflexivity.
Defined.

Lemma bad_key_is_never_accepted_witness :
  (KnownHostsCheck TextKey textLine example_checker None
                   (OtherKeys ["ssh-rsa AAAAB3"]) "example.org" "192.0.2.7:22"
                   example_key (terminal ["yes"; "yes"])).1
  <> None
  /\ stdin (KnownHostsCheck TextKey textLine example_checker None
                            (OtherKeys ["ssh-rsa AAAAB3"]) "example.org"
                            "192.0.2.7:22" example_key
                            (terminal ["yes"; "yes"])).2
     = ["yes"; "yes"]
  /\ appended (KnownHostsCheck TextKey textLine example_checker None
                               (OtherKeys ["ssh-rsa AAAAB3"]) "example.org"
                               "192.0.2.7:22" example_key
                               (terminal ["yes"; "yes"])).2
     = [].
Proof.
  apply (bad_key_is_never_accepted textLine example_checker None
           (OtherKeys ["ssh-rsa AAAAB3"])).
  discriminate.
Defined.

Lemma two_questions_table_witness :
  let r := KnownHostsCheck TextKey textLine example_checker None Found
                           "example.org" "192.0.2.7:22" example_key
                           (terminal ["YES"; "Yes"; "yes"]) in
  (ToLower "YES" <> "yes" ->
   r.1 = Some ErrUnknownHost /\ stdin r.2 = ["Yes"; "yes"]
   /\ appended r.2 = [])
  /\ (ToLower "YES" = "yes" ->
      r.1 = None /\ stdin r.2 = ["yes"]
      /\ appended r.2
         = if String.eqb "Yes" "yes"
           then [] ++ [textLine ["192.0.2.7:22"] example_key +:+ newline]
           else []).
Proof.
  apply (two_questions_table textLine example_checker "known_hosts" []
           "example.org" "192.0.2.7:22" example_key
           (terminal ["YES"; "Yes"; "yes"]) "YES" "Yes" ["yes"]);
    reflexivity.
Defined.

End HostTrustMoreWitnesses.

(** *** StreamCopier: buffer sizes and a signal that fires midway *)

Section CopierMoreFacts.
Import StreamCopier.

(** X21. The size of the buffer does not show in the result: for every
    buffer of [n >= 1] bytes and every [data] (shorter than 2^63 bytes),
    copying from a plain reader that fills the buffer it is given on each
    read, to a writer that takes every chunk whole, hands exactly [data] to
    the writer and returns (len(data), nil). *)
Theorem any_buffer_size_reproduces_data (v : Variant) (dst : Sink) (n : nat)
    (data : bytes) :
  (1 <= n)%nat ->
  dst_readFrom dst = None ->
  faithful dst ->
  Z.of_nat (length data) < 2 ^ 63 ->
  exists io,
    CopyBufferWithContext v dst (plainSource (chunksOf (length data) n data))
                          (Some n) Never io0
    = (Returned (Z.of_nat (length data)) None, io)
    /\ concat (io_dst io) = data.
Proof. apply copy_any_buffer_size. Qed.

Lemma any_buffer_size_reproduces_data_witness :
  exists io,
    CopyBufferWithContext DirectGo plainSink
                          (plainSource (chunksOf (length hello) 2 hello))
                          (Some 2%nat) Never io0
    = (Returned 5 None, io)
    /\ concat (io_dst io) = hello.
Proof.
  apply (any_buffer_size_reproduces_data DirectGo plainSink 2 hello).
  - lia.
  - reflexivity.
  - intros k p. reflexivity.
  - reflexivity.
Defined.

(** X22. A signal that fires after [k] turns of the loop loses nothing of
    what was copied before: on a plain reader whose first [k] reads each
    give a chunk that fits the buffer and no error, and a writer that takes
    every chunk whole, [CopyBufferWithContext] returns the cancelled outcome
    with the number of bytes of those [k] reads, and exactly those bytes
    have reached [dst]. *)
Theorem cancel_midway_keeps_count (v : Variant) (dst : Sink) (src : Source)
    (n k : nat) :
  src_writeTo src = None ->
  dst_readFrom dst = None ->
  faithful dst ->
  (k <= length (src_reads src))%nat ->
  Forall (fun r => r.2 = None /\ (length r.1 <= n)%nat) (take k (src_reads src)) ->
  Z.of_nat (length (produced (take k (src_reads src)))) < 2 ^ 63 ->
  exists io,
    CopyBufferWithContext v dst src (Some n) (DoneAfter k) io0
    = (cancelled v (Z.of_nat (length (produced (take k (src_reads src))))), io)
    /\ concat (io_dst io) = produced (take k (src_reads src)).
Proof.
  intros HwriteTo HreadFrom Hdst Hk Hfit Hlen.
  unfold CopyBufferWithContext. rewrite HwriteTo, HreadFrom. cbn [bufLen].
  destruct (cancel_returns_written_so_far v dst (Z.of_nat n) Hdst k
              (src_reads src) io0 0) as (io & Hrun & Hlog); [done| |lia|exact Hlen|].
  { eapply Forall_impl; [exact Hfit|]. intros r [Hr Hl]. split; [done|lia]. }
  exists io. by rewrite Hrun, Hlog.
Qed.

Lemma cancel_midway_keeps_count_witness :
  exists io,
    CopyBufferWithContext DirectGo plainSink (plainSource helloReads)
                          (Some 4%nat) (DoneAfter 1) io0
    = (Returned 4 (Some interruptedErr), io)
    /\ concat (io_dst io) = take 4 hello.
Proof.
  apply (cancel_midway_keeps_count DirectGo plainSink (plainSource helloReads)
           4 1).
  - reflexivity.
  - reflexivity.
  - intros k p. reflexivity.
  - simpl. lia.
  - repeat constructor.
  - reflexivity.
Defined.

End CopierMoreFacts.
